(** * fps-shooter: the physics/control loop of [src/main.ts]

    A shallow embedding of the program's setup ([initCannon],
    [initPointerLock]), its frame callback ([animate]) and its click handler,
    with the properties of the physics/control loop stated over it.

    Numbers.  JavaScript numbers are IEEE-754 doubles.  The program is
    embedded once, over an interface [Number] of the arithmetic it uses, and
    read at two instances: [binary64] (doubles, through the Standard Library's
    executable specification [SpecFloat]) and [Q] (exact rationals, the
    arithmetic in which the specification reasons).

    Libraries.  cannon-es ([CANNON.World.step], the solver) and three.js
    (camera unprojection, vector normalisation) are dependencies whose code is
    not part of the repository; what the program asks of them is gathered in
    the interface [Host] and left abstract. *)

From Stdlib Require Import String ZArith QArith Qround Qabs List Bool Lia Lqa SpecFloat.
Import ListNotations.
Close Scope Q_scope.

Set Implicit Arguments.

(** ** Numbers *)

Class Number (T : Type) : Type := {
  ofZ : Z -> T;            (* an integer literal *)
  add : T -> T -> T;
  sub : T -> T -> T;
  mul : T -> T -> T;
  div : T -> T -> T;
  neg : T -> T
}.

Declare Scope js_scope.
Delimit Scope js_scope with js.
Infix "+" := add : js_scope.
Infix "-" := sub : js_scope.
Infix "*" := mul : js_scope.
Infix "/" := div : js_scope.
Notation "- a" := (neg a) : js_scope.

(** The decimal literal [m/d] ([dec 13 10] is [1.3]): the quotient of two
    integers, which in binary64 is the double nearest to the decimal. *)
Definition dec {T} `{Number T} (m : Z) (d : positive) : T :=
  (ofZ m / ofZ (Zpos d))%js.

(** The comparison [a > b]. *)
Class Order (T : Type) : Type := { gt : T -> T -> bool }.
Infix ">" := gt : js_scope.

(** The comparison [a >= b]. *)
Class AtLeast (T : Type) : Type := { ge : T -> T -> bool }.
Infix ">=" := ge : js_scope.

(** ** Results of event handlers *)

Inductive Error : Type :=
| TypeError      (* a property of [undefined] was read *)
| DanglingRef.   (* a body index outside [world.bodies]: never happens *)

Inductive result (A : Type) : Type :=
| Ok (a : A)
| Err (e : Error).
Arguments Ok {A} a.
Arguments Err {A} e.

Definition bind {A B} (c : result A) (k : A -> result B) : result B :=
  match c with
  | Ok a => k a
  | Err e => Err e
  end.

Notation "v <- c ;; k" := (bind c (fun v => k))
  (at level 61, c at next level, right associativity).

Definition fromOption {A} (e : Error) (o : option A) : result A :=
  match o with
  | Some a => Ok a
  | None => Err e
  end.

(** [l[i] = f(l[i])]; out of range the list is left as it is. *)
Fixpoint alter {A} (f : A -> A) (i : nat) (l : list A) : list A :=
  match l, i with
  | [], _ => []
  | a :: l', O => f a :: l'
  | a :: l', S i' => a :: alter f i' l'
  end.

(** ** Data *)

Section Data.
Context {T : Type}.

Record Vec3 : Type := V3 { x : T; y : T; z : T }.

Record Quaternion : Type := Quat { qx : T; qy : T; qz : T; qw : T }.

Record SphereShape : Type := Sphere { radius : T }.

Inductive Shape : Type :=
| ShSphere (s : SphereShape)
| ShBox (halfExtents : Vec3)
| ShPlane.

Inductive Material : Type := mkMaterial (name : string).

(** A [CANNON.Body], with the fields the program writes or reads.  A damping
    the program does not set is [None] (the library's default). *)
Record Body : Type := {
  mass : T;
  material : option Material;
  shapes : list Shape;
  position : Vec3;
  quaternion : Quaternion;
  velocity : Vec3;
  linearDamping : option T;
  angularDamping : option T
}.

(** A reference to a body object: its index in [world.bodies], or the
    placeholder body of line 245, which is never added to the world. *)
Inductive BodyRef : Type :=
| InWorld (index : nat)
| Detached.

Record Constraint : Type := PointToPointConstraint {
  bodyA : BodyRef;
  pivotA : Vec3;
  bodyB : BodyRef;
  pivotB : Vec3
}.

(** A [CANNON.World]: bodies in insertion order, constraints, gravity, and the
    engine's own state [E] (solver settings, contact materials, clock). *)
Record World (E : Type) : Type := {
  bodies : list Body;
  constraints : list Constraint;
  gravity : Vec3;
  engine : E
}.

(** A [THREE.Mesh]; [uid] numbers the meshes in the order of their creation. *)
Record Mesh : Type := {
  uid : nat;
  mesh_position : Vec3;
  mesh_quaternion : Quaternion;
  castShadow : bool;
  receiveShadow : bool
}.

End Data.

Arguments Vec3 T : clear implicits.
Arguments Quaternion T : clear implicits.
Arguments SphereShape T : clear implicits.
Arguments Shape T : clear implicits.
Arguments Body T : clear implicits.
Arguments BodyRef : clear implicits.
Arguments Constraint T : clear implicits.
Arguments World T E : clear implicits.
Arguments Mesh T : clear implicits.
Arguments ShPlane {T}.

(** ** The libraries the program calls *)

Class Host (T : Type) : Type := {
  (* cannon-es *)
  Engine : Type;
  newEngine : Engine;
  (* [world.step(dt, elapsed)] mutates the bodies in place: the collection
     keeps its length and order; [stepBody dt elapsed w i] is body [i] after
     the call and [stepEngine dt elapsed w] the engine state after it. *)
  stepBody : T -> T -> World T Engine -> nat -> Body T -> Body T;
  stepEngine : T -> T -> World T Engine -> Engine;
  Math_PI : T;
  setFromEuler : T -> T -> T -> Quaternion T;
  (* three.js: the camera and the controller's view state *)
  View : Type;
  newView : View;
  unproject : View -> Vec3 T -> Vec3 T;
  normalize : Vec3 T -> Vec3 T;
  (* ./pointer-lock, which is not among the sources *)
  desiredVelocity : View -> T * T;
  eyeTransform : View -> Vec3 T -> View
}.

(** ** The program *)

Section Program.
Context {T : Type} {num : Number T} {host : Host T}.
Local Open Scope js_scope.

Definition vzero : Vec3 T := V3 (ofZ 0) (ofZ 0) (ofZ 0).
Definition qidentity : Quaternion T := Quat (ofZ 0) (ofZ 0) (ofZ 0) (ofZ 1).

(** [new CANNON.Body({ mass, material })] *)
Definition newBody (m : T) (mat : option Material) : Body T :=
  {| mass := m; material := mat; shapes := [];
     position := vzero; quaternion := qidentity; velocity := vzero;
     linearDamping := None; angularDamping := None |}.

Definition addShape (sh : Shape T) (b : Body T) : Body T :=
  {| mass := mass b; material := material b; shapes := shapes b ++ [sh];
     position := position b; quaternion := quaternion b;
     velocity := velocity b;
     linearDamping := linearDamping b; angularDamping := angularDamping b |}.

Definition setPosition (p : Vec3 T) (b : Body T) : Body T :=
  {| mass := mass b; material := material b; shapes := shapes b;
     position := p; quaternion := quaternion b; velocity := velocity b;
     linearDamping := linearDamping b; angularDamping := angularDamping b |}.

Definition setQuaternion (q : Quaternion T) (b : Body T) : Body T :=
  {| mass := mass b; material := material b; shapes := shapes b;
     position := position b; quaternion := q; velocity := velocity b;
     linearDamping := linearDamping b; angularDamping := angularDamping b |}.

Definition setVelocity (v : Vec3 T) (b : Body T) : Body T :=
  {| mass := mass b; material := material b; shapes := shapes b;
     position := position b; quaternion := quaternion b; velocity := v;
     linearDamping := linearDamping b; angularDamping := angularDamping b |}.

Definition setLinearDamping (d : T) (b : Body T) : Body T :=
  {| mass := mass b; material := material b; shapes := shapes b;
     position := position b; quaternion := quaternion b;
     velocity := velocity b;
     linearDamping := Some d; angularDamping := angularDamping b |}.

Definition setAngularDamping (d : T) (b : Body T) : Body T :=
  {| mass := mass b; material := material b; shapes := shapes b;
     position := position b; quaternion := quaternion b;
     velocity := velocity b;
     linearDamping := linearDamping b; angularDamping := Some d |}.

(** [new THREE.Mesh(geometry, material)] *)
Definition newMesh (id : nat) : Mesh T :=
  {| uid := id; mesh_position := vzero; mesh_quaternion := qidentity;
     castShadow := false; receiveShadow := false |}.

Definition setShadows (cast receive : bool) (m : Mesh T) : Mesh T :=
  {| uid := uid m; mesh_position := mesh_position m;
     mesh_quaternion := mesh_quaternion m;
     castShadow := cast; receiveShadow := receive |}.

(** [mesh.position.copy(p)] *)
Definition copyPosition (p : Vec3 T) (m : Mesh T) : Mesh T :=
  {| uid := uid m; mesh_position := p; mesh_quaternion := mesh_quaternion m;
     castShadow := castShadow m; receiveShadow := receiveShadow m |}.

(** [mesh.quaternion.copy(q)] *)
Definition copyQuaternion (q : Quaternion T) (m : Mesh T) : Mesh T :=
  {| uid := uid m; mesh_position := mesh_position m; mesh_quaternion := q;
     castShadow := castShadow m; receiveShadow := receiveShadow m |}.

(** *** The world *)

Definition setBodies (bs : list (Body T)) (w : World T Engine)
  : World T Engine :=
  {| bodies := bs; constraints := constraints w;
     gravity := gravity w; engine := engine w |}.

(** [world.addBody(b)]: the body gets the next index. *)
Definition addBody (b : Body T) (w : World T Engine) : World T Engine :=
  setBodies (bodies w ++ [b]) w.

Definition addConstraint (c : Constraint T) (w : World T Engine)
  : World T Engine :=
  {| bodies := bodies w; constraints := constraints w ++ [c];
     gravity := gravity w; engine := engine w |}.

Fixpoint mapi_from {A B} (f : nat -> A -> B) (i : nat) (l : list A) : list B :=
  match l with
  | [] => []
  | a :: l' => f i a :: mapi_from f (S i) l'
  end.

(** [world.step(dt, elapsed)], through the library's [stepBody] and
    [stepEngine]. *)
Definition worldStep (dt elapsed : T) (w : World T Engine) : World T Engine :=
  {| bodies := mapi_from (stepBody dt elapsed w) 0 (bodies w);
     constraints := constraints w;
     gravity := gravity w;
     engine := stepEngine dt elapsed w |}.

(** *** Module state: the variables of lines 13-23 *)

Record Controls : Type := { enabled : bool; view : View }.

Record State : Type := {
  world : World T Engine;
  controls : Controls;
  lastCallTime : T;
  sphereShape : SphereShape T;
  sphereBody : nat;
  balls : list nat;
  ballMeshes : list (Mesh T);
  boxes : list nat;
  boxMeshes : list (Mesh T);
  (* ghost state *)
  stepCalls : list (T * T);   (* the calls [world.step(dt, elapsed)] so far *)
  meshCount : nat             (* the meshes created so far *)
}.

Definition setWorld (w : World T Engine) (s : State) : State :=
  {| world := w; controls := controls s; lastCallTime := lastCallTime s;
     sphereShape := sphereShape s; sphereBody := sphereBody s;
     balls := balls s; ballMeshes := ballMeshes s;
     boxes := boxes s; boxMeshes := boxMeshes s;
     stepCalls := stepCalls s; meshCount := meshCount s |}.

Definition setControls (c : Controls) (s : State) : State :=
  {| world := world s; controls := c; lastCallTime := lastCallTime s;
     sphereShape := sphereShape s; sphereBody := sphereBody s;
     balls := balls s; ballMeshes := ballMeshes s;
     boxes := boxes s; boxMeshes := boxMeshes s;
     stepCalls := stepCalls s; meshCount := meshCount s |}.

Definition setLastCallTime (t : T) (s : State) : State :=
  {| world := world s; controls := controls s; lastCallTime := t;
     sphereShape := sphereShape s; sphereBody := sphereBody s;
     balls := balls s; ballMeshes := ballMeshes s;
     boxes := boxes s; boxMeshes := boxMeshes s;
     stepCalls := stepCalls s; meshCount := meshCount s |}.

Definition setSphere (sh : SphereShape T) (i : nat) (s : State) : State :=
  {| world := world s; controls := controls s; lastCallTime := lastCallTime s;
     sphereShape := sh; sphereBody := i;
     balls := balls s; ballMeshes := ballMeshes s;
     boxes := boxes s; boxMeshes := boxMeshes s;
     stepCalls := stepCalls s; meshCount := meshCount s |}.

Definition setBallMeshes (ms : list (Mesh T)) (s : State) : State :=
  {| world := world s; controls := controls s; lastCallTime := lastCallTime s;
     sphereShape := sphereShape s; sphereBody := sphereBody s;
     balls := balls s; ballMeshes := ms;
     boxes := boxes s; boxMeshes := boxMeshes s;
     stepCalls := stepCalls s; meshCount := meshCount s |}.

Definition setBoxMeshes (ms : list (Mesh T)) (s : State) : State :=
  {| world := world s; controls := controls s; lastCallTime := lastCallTime s;
     sphereShape := sphereShape s; sphereBody := sphereBody s;
     balls := balls s; ballMeshes := ballMeshes s;
     boxes := boxes s; boxMeshes := ms;
     stepCalls := stepCalls s; meshCount := meshCount s |}.

(** [balls.push(body); ballMeshes.push(mesh)], the body by its index. *)
Definition pushBall (i : nat) (m : Mesh T) (s : State) : State :=
  {| world := world s; controls := controls s; lastCallTime := lastCallTime s;
     sphereShape := sphereShape s; sphereBody := sphereBody s;
     balls := balls s ++ [i]; ballMeshes := ballMeshes s ++ [m];
     boxes := boxes s; boxMeshes := boxMeshes s;
     stepCalls := stepCalls s; meshCount := S (meshCount s) |}.

(** [boxes.push(body); boxMeshes.push(mesh)], the body by its index. *)
Definition pushBox (i : nat) (m : Mesh T) (s : State) : State :=
  {| world := world s; controls := controls s; lastCallTime := lastCallTime s;
     sphereShape := sphereShape s; sphereBody := sphereBody s;
     balls := balls s; ballMeshes := ballMeshes s;
     boxes := boxes s ++ [i]; boxMeshes := boxMeshes s ++ [m];
     stepCalls := stepCalls s; meshCount := S (meshCount s) |}.

Definition logStep (dt elapsed : T) (s : State) : State :=
  {| world := world s; controls := controls s; lastCallTime := lastCallTime s;
     sphereShape := sphereShape s; sphereBody := sphereBody s;
     balls := balls s; ballMeshes := ballMeshes s;
     boxes := boxes s; boxMeshes := boxMeshes s;
     stepCalls := stepCalls s ++ [(dt, elapsed)]; meshCount := meshCount s |}.

(** [const timeStep = 1 / 60] *)
Definition timeStep : T := ofZ 1 / ofZ 60.

(** *** [initCannon], lines 146-290 *)

Definition physicsMaterial : Material := mkMaterial "physics".

Definition halfExtents : Vec3 T := V3 (ofZ 1) (ofZ 1) (ofZ 1).
Definition boxShape : Shape T := ShBox halfExtents.

Definition setCastShadow (c : bool) (m : Mesh T) : Mesh T :=
  setShadows c (receiveShadow m) m.
Definition setReceiveShadow (r : bool) (m : Mesh T) : Mesh T :=
  setShadows (castShadow m) r m.

(** Iteration [i] of the loop of lines 201-230.  [random k] is the value of
    the [k]-th call of [Math.random()] in the loop, five calls an
    iteration. *)
Definition addBox (random : nat -> T) (s : State) (i : nat) : State :=
  let boxBody := addShape boxShape (newBody (ofZ 5) None) in
  let boxMesh := newMesh (meshCount s) in
  let boxMesh := setReceiveShadow true (setCastShadow true boxMesh) in
  let clusterX := (random (5 * i)%nat - dec 5 10) * ofZ 100 in
  let clusterZ := (random (5 * i + 1)%nat - dec 5 10) * ofZ 100 in
  let x := clusterX + (random (5 * i + 2)%nat - dec 5 10) * ofZ 2 in
  let y := random (5 * i + 3)%nat * ofZ 10 + ofZ 1 in
  let z := clusterZ + (random (5 * i + 4)%nat - dec 5 10) * ofZ 2 in
  let boxBody := setPosition (V3 x y z) boxBody in
  let boxMesh := copyPosition (position boxBody) boxMesh in
  let index := length (bodies (world s)) in
  pushBox index boxMesh (setWorld (addBody boxBody (world s)) s).

(** The constants of lines 233-238. *)
Definition size : T := dec 5 10.
Definition linkMass : T := dec 3 10.      (* [mass] *)
Definition space : T := dec 1 10 * size.
Definition linkN : nat := 10.             (* [N] *)
Definition halfExtents2 : Vec3 T := V3 size size (size * dec 1 10).
Definition boxShape2 : Shape T := ShBox halfExtents2.

(** The height at which line 257 puts link [i]. *)
Definition linkY (i : nat) : T :=
  (ofZ (Z.of_nat linkN) - ofZ (Z.of_nat i)) * (size * ofZ 2 + ofZ 2 * space)
  + size * ofZ 2 + space.

(** The four pivots of lines 275-283. *)
Definition pivotA1 : Vec3 T := V3 (- size) (size + space) (ofZ 0).
Definition pivotB1 : Vec3 T := V3 (- size) (- size - space) (ofZ 0).
Definition pivotA2 : Vec3 T := V3 size (size + space) (ofZ 0).
Definition pivotB2 : Vec3 T := V3 size (- size - space) (ofZ 0).

(** Iteration [i] of the loop of lines 247-290; [last] is threaded along. *)
Definition addLink (acc : State * BodyRef) (i : nat) : State * BodyRef :=
  let (s, last) := acc in
  let boxBody :=
    addShape boxShape2
      (newBody (if Nat.eqb i 0 then ofZ 0 else linkMass) None) in
  let boxMesh := setCastShadow true (newMesh (meshCount s)) in
  let boxBody := setPosition (V3 (ofZ 5) (linkY i) (ofZ 0)) boxBody in
  let boxBody := setLinearDamping (dec 1 100) boxBody in
  let boxBody := setAngularDamping (dec 1 100) boxBody in
  let boxMesh := setReceiveShadow true (setCastShadow true boxMesh) in
  let index := length (bodies (world s)) in
  let s := pushBox index boxMesh (setWorld (addBody boxBody (world s)) s) in
  let s :=
    if Nat.ltb 0 i then
      let constraint1 :=
        PointToPointConstraint (InWorld index) pivotA1 last pivotB1 in
      let constranit2 :=
        PointToPointConstraint (InWorld index) pivotA2 last pivotB2 in
      setWorld
        (addConstraint constranit2 (addConstraint constraint1 (world s))) s
    else s in
  (s, InWorld index).

Definition initCannon (random : nat -> T) (s : State) : State :=
  let world :=
    {| bodies := []; constraints := [];
       gravity := V3 (ofZ 0) (- ofZ 20) (ofZ 0); engine := newEngine |} in
  (* the user collision sphere *)
  let radius := dec 13 10 in
  let sphereShape := Sphere radius in
  let sphereBody := newBody (ofZ 5) (Some physicsMaterial) in
  let sphereBody := addShape (ShSphere sphereShape) sphereBody in
  let sphereBody := setPosition (V3 (ofZ 0) (ofZ 5) (ofZ 0)) sphereBody in
  let sphereBody := setLinearDamping (dec 9 10) sphereBody in
  let s := setSphere sphereShape (length (bodies world)) s in
  let world := addBody sphereBody world in
  (* the ground plane *)
  let groundBody := newBody (ofZ 0) (Some physicsMaterial) in
  let groundBody := addShape ShPlane groundBody in
  let groundBody :=
    setQuaternion (setFromEuler (- Math_PI / ofZ 2) (ofZ 0) (ofZ 0))
      groundBody in
  let world := addBody groundBody world in
  let s := setWorld world s in
  (* the boxes *)
  let s := fold_left (addBox random) (seq 0 100) s in
  (* the linked boxes; [last] starts as a body that is in no world *)
  fst (fold_left addLink (seq 0 linkN) (s, Detached)).

(** *** The click handler, lines 293-354 *)

Definition shootVelocity : T := ofZ 15.
Definition ballShape : SphereShape T := Sphere (dec 2 10).

Definition vsub (a b : Vec3 T) : Vec3 T :=
  V3 (x a - x b) (y a - y b) (z a - z b).

Definition getBody (i : nat) (s : State) : result (Body T) :=
  fromOption DanglingRef (nth_error (bodies (world s)) i).

Definition updateBody (i : nat) (f : Body T -> Body T) (s : State) : State :=
  setWorld (setBodies (alter f i (bodies (world s))) (world s)) s.

(** The direction the camera looks in: the screen centre [(0,0,1)]
    unprojected, seen from the player sphere. *)
Definition getShootDirection (s : State) : result (Vec3 T) :=
  let vector := V3 (ofZ 0) (ofZ 0) (ofZ 1) in
  let vector := unproject (view (controls s)) vector in
  player <- getBody (sphereBody s) s ;;
  Ok (normalize (vsub vector (position player))).

(** The mouse coordinates a click event carries; the handler takes no
    argument. *)
Record MouseEvent : Type := { clientX : T; clientY : T }.

Definition click (ev : MouseEvent) (s : State) : result State :=
  if negb (enabled (controls s)) then Ok s
  else
    let ballBody := addShape (ShSphere ballShape) (newBody (ofZ 1) None) in
    let ballMesh := newMesh (meshCount s) in
    let ballMesh := setReceiveShadow true (setCastShadow true ballMesh) in
    let index := length (bodies (world s)) in
    let meshIndex := length (ballMeshes s) in
    let s := setWorld (addBody ballBody (world s)) s in
    let s := pushBall index ballMesh s in
    shootDirection <- getShootDirection s ;;
    let s :=
      updateBody index
        (setVelocity (V3 (x shootDirection * shootVelocity)
                         (y shootDirection * shootVelocity)
                         (z shootDirection * shootVelocity))) s in
    (* move the ball outside the player sphere *)
    player <- getBody (sphereBody s) s ;;
    let x' :=
      x (position player)
      + x shootDirection
        * (radius (sphereShape s) * dec 102 100 + radius ballShape) in
    let y' :=
      y (position player)
      + y shootDirection
        * (radius (sphereShape s) * dec 102 100 + radius ballShape) in
    let z' :=
      z (position player)
      + z shootDirection
        * (radius (sphereShape s) * dec 102 100 + radius ballShape) in
    let s := updateBody index (setPosition (V3 x' y' z')) s in
    ball <- getBody index s ;;
    Ok (setBallMeshes
          (alter (copyPosition (position ball)) meshIndex (ballMeshes s)) s).

(** *** [initPointerLock], lines 357-376 *)

(** Modelled from the spec: the constructor of [PointerLockControlsCannon]
    (./pointer-lock is not among the sources); the controller starts
    Unlocked, [enabled] false. *)
Definition newControls : Controls := {| enabled := false; view := newView |}.

Definition initPointerLock (s : State) : State := setControls newControls s.

(** The listeners of lines 366-375. *)
Definition onLock (s : State) : State :=
  setControls {| enabled := true; view := view (controls s) |} s.

Definition onUnlock (s : State) : State :=
  setControls {| enabled := false; view := view (controls s) |} s.

(** Modelled from the spec: [controls.update(dt)] of ./pointer-lock, which is
    not among the sources.  Unlocked it does nothing; Locked it writes the
    desired horizontal velocity into the avatar body, leaves the vertical
    component, and moves the eye to the avatar. *)
Definition controlsUpdate (dt : T) (s : State) : State :=
  if enabled (controls s) then
    let v := desiredVelocity (view (controls s)) in
    let s :=
      updateBody (sphereBody s)
        (fun b => setVelocity (V3 (fst v) (y (velocity b)) (snd v)) b) s in
    match nth_error (bodies (world s)) (sphereBody s) with
    | Some b =>
        setControls
          {| enabled := true;
             view := eyeTransform (view (controls s)) (position b) |} s
    | None => s
    end
  else s.

(** Modelled from the spec: a pointer or key event handled by ./pointer-lock
    changes the view state.  The spec lets it do so only while Locked; here
    it may do so at any time. *)
Definition onInput (v : View) (s : State) : State :=
  setControls {| enabled := enabled (controls s); view := v |} s.

(** *** [animate], lines 378-403 *)

Definition copyPose (b : Body T) (m : Mesh T) : Mesh T :=
  copyQuaternion (quaternion b) (copyPosition (position b) m).

(** The body of the loops of lines 389-398:
    [meshes[i].position.copy(refs[i].position)] and the same for the
    quaternion. *)
Definition syncMesh (bs : list (Body T)) (refs : list nat) (i : nat)
    (meshes : list (Mesh T)) : result (list (Mesh T)) :=
  match nth_error meshes i with
  | None => Err TypeError
  | Some _ =>
      r <- fromOption TypeError (nth_error refs i) ;;
      b <- fromOption DanglingRef (nth_error bs r) ;;
      Ok (alter (copyPose b) i meshes)
  end.

(** [for (; i < refs.length; i++)] with [n] iterations to go. *)
Fixpoint syncFrom (bs : list (Body T)) (refs : list nat) (i n : nat)
    (meshes : list (Mesh T)) : result (list (Mesh T)) :=
  match n with
  | O => Ok meshes
  | S n' =>
      meshes <- syncMesh bs refs i meshes ;;
      syncFrom bs refs (S i) n' meshes
  end.

Definition syncMeshes (bs : list (Body T)) (refs : list nat)
    (meshes : list (Mesh T)) : result (list (Mesh T)) :=
  syncFrom bs refs 0 (length refs) meshes.

(** One frame; [now] is the value of [performance.now()].  Rendering and the
    request for the next frame are left out. *)
Definition animate (now : T) (s : State) : result State :=
  let time := now / ofZ 1000 in
  let dt := time - lastCallTime s in
  let s := setLastCallTime time s in
  s <- (if enabled (controls s) then
          let s := logStep timeStep dt s in
          let s := setWorld (worldStep timeStep dt (world s)) s in
          (* update ball positions *)
          ms <- syncMeshes (bodies (world s)) (balls s) (ballMeshes s) ;;
          let s := setBallMeshes ms s in
          (* update box positions *)
          ms <- syncMeshes (bodies (world s)) (boxes s) (boxMeshes s) ;;
          Ok (setBoxMeshes ms s)
        else Ok s) ;;
  Ok (controlsUpdate dt s).

(** *** The program as a machine driven by events *)

Inductive Event : Type :=
| Frame (now : T)
| Click (ev : MouseEvent)
| Lock
| Unlock
| Input (v : View).

Definition handle (e : Event) (s : State) : result State :=
  match e with
  | Frame now => animate now s
  | Click ev => click ev s
  | Lock => Ok (onLock s)
  | Unlock => Ok (onUnlock s)
  | Input v => Ok (onInput v s)
  end.

Fixpoint run (es : list Event) (s : State) : result State :=
  match es with
  | [] => Ok s
  | e :: es' => s' <- handle e s ;; run es' s'
  end.

(** The module variables before the [init] functions run; [now0] is the value
    line 16 reads from [performance.now()]. *)
Definition blank (now0 : T) : State :=
  {| world := {| bodies := []; constraints := [];
                 gravity := vzero; engine := newEngine |};
     controls := newControls;
     lastCallTime := now0;
     sphereShape := Sphere (ofZ 0); sphereBody := 0;
     balls := []; ballMeshes := []; boxes := []; boxMeshes := [];
     stepCalls := []; meshCount := 0 |}.

(** Lines 27-29, before the first frame. *)
Definition start (random : nat -> T) (now0 : T) : State :=
  initPointerLock (initCannon random (blank now0)).

Inductive reachable (random : nat -> T) (now0 : T) : State -> Prop :=
| reach_start : reachable random now0 (start random now0)
| reach_event s e s' :
    reachable random now0 s -> handle e s = Ok s' -> reachable random now0 s'.

(** *** What the properties speak of *)

(** How far from the player's centre the click handler puts a ball. *)
Definition reach (s : State) : T :=
  radius (sphereShape s) * dec 102 100 + radius ballShape.

(** Where iteration [i] of the first loop of [initCannon] puts its box. *)
Definition boxPosition (random : nat -> T) (i : nat) : Vec3 T :=
  V3 ((random (5 * i)%nat - dec 5 10) * ofZ 100
      + (random (5 * i + 2)%nat - dec 5 10) * ofZ 2)
     (random (5 * i + 3)%nat * ofZ 10 + ofZ 1)
     ((random (5 * i + 1)%nat - dec 5 10) * ofZ 100
      + (random (5 * i + 4)%nat - dec 5 10) * ofZ 2).

(** The box of iteration [i], and link [i] of the chain, as bodies. *)
Definition randomBox (random : nat -> T) (i : nat) : Body T :=
  setPosition (boxPosition random i) (addShape boxShape (newBody (ofZ 5) None)).

Definition linkBody (i : nat) : Body T :=
  setAngularDamping (dec 1 100)
    (setLinearDamping (dec 1 100)
       (setPosition (V3 (ofZ 5) (linkY i) (ofZ 0))
          (addShape boxShape2
             (newBody (if Nat.eqb i 0 then ofZ 0 else linkMass) None)))).

(** A click, [n] times. *)
Definition clicks (ev : MouseEvent) (n : nat) : list Event :=
  repeat (Click ev) n.

Definition isLock (e : Event) : bool :=
  match e with
  | Lock => true
  | _ => false
  end.

(** The calls of [world.step] a sequence of events leads to, read off the
    events alone: [on] says whether the controller is enabled and [last] is
    the time the last frame stored. *)
Fixpoint expectedCalls (on : bool) (last : T) (es : list Event)
  : list (T * T) :=
  match es with
  | [] => []
  | Frame now :: es' =>
      (if on then [(timeStep, now / ofZ 1000 - last)] else [])
      ++ expectedCalls on (now / ofZ 1000) es'
  | Lock :: es' => expectedCalls true last es'
  | Unlock :: es' => expectedCalls false last es'
  | _ :: es' => expectedCalls on last es'
  end.

(** What a frame of the disabled program does: it stores its time. *)
Definition tick (s : State) (now : T) : State :=
  setLastCallTime (now / ofZ 1000) s.

(** Each proxy collection is as long as the body collection it mirrors. *)
Definition Parallel (s : State) : Prop :=
  length (ballMeshes s) = length (balls s)
  /\ length (boxMeshes s) = length (boxes s).

(** Every index held in [refs] is an index of [bs]. *)
Definition validRefs (bs : list (Body T)) (refs : list nat) : Prop :=
  Forall (fun r => r < length bs) refs.

(** The invariant of the module state. *)
Record Inv (s : State) : Prop := {
  inv_parallel : Parallel s;
  inv_balls : validRefs (bodies (world s)) (balls s);
  inv_boxes : validRefs (bodies (world s)) (boxes s);
  inv_player : sphereBody s = 0;
  inv_count :
    length (bodies (world s)) = (2 + length (boxes s) + length (balls s))%nat;
  inv_radius : sphereShape s = Sphere (dec 13 10)
}.

(** Proxy [i] carries the pose of body [refs[i]], for every [i]. *)
Definition Mirrors (bs : list (Body T)) (refs : list nat)
    (meshes : list (Mesh T)) : Prop :=
  forall i r, nth_error refs i = Some r ->
    exists b m, nth_error bs r = Some b /\ nth_error meshes i = Some m
      /\ mesh_position m = position b /\ mesh_quaternion m = quaternion b.

(** The world-space point of a local offset on a body; the bodies it is
    used on are in the identity orientation. *)
Definition vadd (a b : Vec3 T) : Vec3 T :=
  V3 (x a + x b) (y a + y b) (z a + z b).

Definition deref (bs : list (Body T)) (r : BodyRef) : option (Body T) :=
  match r with
  | InWorld i => nth_error bs i
  | Detached => None
  end.

Definition anchorA (bs : list (Body T)) (c : Constraint T)
  : option (Vec3 T) :=
  option_map (fun b => vadd (position b) (pivotA c)) (deref bs (bodyA c)).

Definition anchorB (bs : list (Body T)) (c : Constraint T)
  : option (Vec3 T) :=
  option_map (fun b => vadd (position b) (pivotB c)) (deref bs (bodyB c)).

(** The two constraints that tie link [i] to link [i-1]; the links are the
    bodies [first], [first+1], ... of the world. *)
Definition linkConstraints (first i : nat) : list (Constraint T) :=
  [ PointToPointConstraint (InWorld (first + i)%nat) pivotA1
      (InWorld (first + i - 1)%nat) pivotB1;
    PointToPointConstraint (InWorld (first + i)%nat) pivotA2
      (InWorld (first + i - 1)%nat) pivotB2 ].

(** A host in which nothing moves, for any arithmetic. *)
Definition stillHost : Host T :=
  {| Engine := unit; newEngine := tt;
     stepBody := fun _ _ _ _ b => b;
     stepEngine := fun _ _ _ => tt;
     Math_PI := ofZ 3;
     setFromEuler := fun ex ey ez => Quat ex ey ez (ofZ 1);
     View := unit; newView := tt;
     unproject := fun _ v => v;
     normalize := fun v => v;
     desiredVelocity := fun _ => (ofZ 0, ofZ 0);
     eyeTransform := fun v _ => v |}.

End Program.

(** ** The two arithmetics *)

(** IEEE-754 binary64, round to nearest even. *)
Definition binary64 : Type := spec_float.

#[export] Instance ieee : Number binary64 :=
  {| ofZ := fun n => binary_normalize 53 1024 n 0 false;
     add := SFadd 53 1024;
     sub := SFsub 53 1024;
     mul := SFmul 53 1024;
     div := SFdiv 53 1024;
     neg := SFopp |}.

(** Exact rationals. *)
#[export] Instance exact : Number Q :=
  {| ofZ := inject_Z;
     add := Qplus;
     sub := Qminus;
     mul := Qmult;
     div := Qdiv;
     neg := Qopp |}.

#[export] Instance ieeeOrder : Order binary64 :=
  {| gt := fun a b => SFltb b a |}.

#[export] Instance exactOrder : Order Q :=
  {| gt := fun a b => negb (Qle_bool a b) |}.

#[export] Instance ieeeAtLeast : AtLeast binary64 :=
  {| ge := fun a b => SFleb b a |}.

#[export] Instance exactAtLeast : AtLeast Q :=
  {| ge := fun a b => Qle_bool b a |}.

(** The rational a finite double stands for. *)
Definition toQ (f : binary64) : option Q :=
  match f with
  | S754_zero _ => Some 0%Q
  | S754_finite s m e =>
      Some ((if s then - inject_Z (Zpos m) else inject_Z (Zpos m)) * 2 ^ e)%Q
  | _ => None
  end.

(** Two doubles are finite and at most [eps] apart. *)
Definition closeb (eps : Q) (a b : binary64) : bool :=
  match toQ a, toQ b with
  | Some p, Some q => Qle_bool (Qabs (p - q)%Q) eps
  | _, _ => false
  end.

Definition vcloseb (eps : Q) (a b : Vec3 binary64) : bool :=
  closeb eps (x a) (x b) && closeb eps (y a) (y b) && closeb eps (z a) (z b).

(** Equality of rational vectors, as rationals. *)
Definition veq (a b : Vec3 Q) : Prop :=
  (x a == x b /\ y a == y b /\ z a == z b)%Q.

Definition veqb (a b : Vec3 Q) : bool :=
  Qeq_bool (x a) (x b) && Qeq_bool (y a) (y b) && Qeq_bool (z a) (z b).

(** The squared length of a vector and the squared distance of two points. *)
Definition norm2 (v : Vec3 Q) : Q :=
  (x v * x v + y v * y v + z v * z v)%Q.

Definition dist2 (a b : Vec3 Q) : Q := norm2 (vsub a b).

(** The two anchors of a constraint are the same point, in exact
    arithmetic. *)
Definition coincideb (bs : list (Body Q)) (c : Constraint Q) : bool :=
  match anchorA bs c, anchorB bs c with
  | Some a, Some b => veqb a b
  | _, _ => false
  end.

Definition Coincide (bs : list (Body Q)) (c : Constraint Q) : Prop :=
  exists a b, anchorA bs c = Some a /\ anchorB bs c = Some b /\ veq a b.

(** In doubles: the two anchors are at most [eps] apart in each
    coordinate. *)
Definition nearb (eps : Q) (bs : list (Body binary64))
    (c : Constraint binary64) : bool :=
  match anchorA bs c, anchorB bs c with
  | Some a, Some b => vcloseb eps a b
  | _, _ => false
  end.

(** In doubles: the two anchors are equal numbers in each coordinate. *)
Definition sameb (bs : list (Body binary64)) (c : Constraint binary64)
  : bool :=
  match anchorA bs c, anchorB bs c with
  | Some a, Some b =>
      SFeqb (x a) (x b) && SFeqb (y a) (y b) && SFeqb (z a) (z b)
  | _, _ => false
  end.

(** ** A host to run the program in

    Bodies drift with their velocity, the view is the point the camera looks
    at, and a vector is scaled by the sum of the absolute values of its
    components, which is its length when it lies along an axis; the zero
    vector, which has no direction, is left as it is, as by three.js's
    [normalize], which divides by [length() || 1]. *)

Definition drift (elapsed : Q) (b : Body Q) : Body Q :=
  if Qeq_bool (mass b) 0 then b
  else
    setPosition
      (V3 (x (position b) + x (velocity b) * elapsed)%Q
          (y (position b) + y (velocity b) * elapsed)%Q
          (z (position b) + z (velocity b) * elapsed)%Q) b.

Definition scaleToAxis (v : Vec3 Q) : Vec3 Q :=
  let l := (Qabs (x v) + Qabs (y v) + Qabs (z v))%Q in
  let l := if Qeq_bool l 0 then 1%Q else l in
  V3 (x v / l)%Q (y v / l)%Q (z v / l)%Q.

Definition driftHost : Host Q :=
  {| Engine := unit; newEngine := tt;
     stepBody := fun _ elapsed _ _ b => drift elapsed b;
     stepEngine := fun _ _ _ => tt;
     Math_PI := (355 # 113)%Q;
     setFromEuler := fun ex ey ez => Quat ex ey ez 1%Q;
     View := Vec3 Q; newView := V3 0%Q 5%Q (-1000)%Q;
     unproject := fun target _ => target;
     normalize := scaleToAxis;
     desiredVelocity := fun _ => (0%Q, 0%Q);
     eyeTransform := fun v _ => v |}.

(** No random spread: every draw of [Math.random()] is one half. *)
Definition centred : nat -> Q := fun _ => (1 # 2)%Q.

(** The program in [driftHost], started at time 0; then locked, looking
    along +Z from the player sphere, and one ball shot. *)
Definition demoStart : @State Q driftHost := start centred 0%Q.

Definition lookAlongZ : Vec3 Q := V3 0%Q 5%Q 1000%Q.

Definition demoLocked : @State Q driftHost :=
  onInput (lookAlongZ : @View Q driftHost) (onLock demoStart).

Definition demoClick : @MouseEvent Q :=
  {| clientX := 400%Q; clientY := 300%Q |}.

Definition demoShot : result (@State Q driftHost) :=
  click demoClick demoLocked.

(** The program in doubles, in the host in which nothing moves. *)
Definition start64 : @State binary64 stillHost :=
  start (fun _ => ofZ 0) (ofZ 0).

(** three.js's [Vector3.normalize], [divideScalar(length() || 1)], in
    doubles: [length()] is [Math.sqrt(x*x + y*y + z*z)], [divideScalar(s)]
    is [multiplyScalar(1 / s)], and [||] puts 1 for 0 and for NaN. *)
Definition length64 (v : Vec3 binary64) : binary64 :=
  SFsqrt 53 1024 (x v * x v + y v * y v + z v * z v)%js.

Definition orOne (l : binary64) : binary64 :=
  match l with
  | S754_zero _ | S754_nan => ofZ 1
  | _ => l
  end.

Definition normalize64 (v : Vec3 binary64) : Vec3 binary64 :=
  let s := (ofZ 1 / orOne (length64 v))%js in
  V3 (x v * s)%js (y v * s)%js (z v * s)%js.

(** The program in doubles with this [normalize]: the view is the point the
    centre of the screen unprojects to, and nothing moves. *)
Definition aimHost : Host binary64 :=
  {| Engine := unit; newEngine := tt;
     stepBody := fun _ _ _ _ b => b;
     stepEngine := fun _ _ _ => tt;
     Math_PI := S754_finite false 7074237752028440 (-51);
     setFromEuler := fun ex ey ez => Quat ex ey ez (ofZ 1);
     View := Vec3 binary64;
     newView := V3 (ofZ 0) (ofZ 5) (ofZ (-1000));
     unproject := fun target _ => target;
     normalize := normalize64;
     desiredVelocity := fun _ => (ofZ 0, ofZ 0);
     eyeTransform := fun v _ => v |}.

(** The program after the pointer is locked and the view has turned to
    [target]. *)
Definition aimed64 (target : Vec3 binary64) : @State binary64 aimHost :=
  onInput (target : @View binary64 aimHost)
    (onLock (start (fun _ => ofZ 0) (ofZ 0))).

(** [Math.sin(Math.PI)], 1.2246467991473532e-16. *)
Definition sinPi : binary64 := S754_finite false 4967757600021511 (-105).

(** The point that is 1000 ahead of the player's centre (0,5,0) in the
    direction (-sin pi, 0, -cos pi), to which a turn by pi about the
    vertical axis takes the direction (0,0,-1) the camera starts with. *)
Definition turnedTarget : Vec3 binary64 :=
  V3 (- (sinPi * ofZ 1000))%js (ofZ 5) (ofZ 1000).

Definition click64 : @MouseEvent binary64 :=
  {| clientX := ofZ 400; clientY := ofZ 300 |}.

(** The rational vector a vector of finite doubles stands for. *)
Definition toQ3 (v : Vec3 binary64) : option (Vec3 Q) :=
  match toQ (x v), toQ (y v), toQ (z v) with
  | Some a, Some b, Some c => Some (V3 a b c)
  | _, _, _ => None
  end.

(** ** The fixed-step accumulator of [world.step] *)

Module FixedStep.
Section Accumulator.
Context {T : Type} {num : Number T} {cmp : AtLeast T}.
Local Open Scope js_scope.

(** The simulation state (bodies, constraints) and one integration by
    [fixedDt] are left abstract. *)
Variable Sim : Type.
Variable integrate : T -> Sim -> Sim.

Record World : Type := { sim : Sim; accumulator : T }.

Definition substep (fixedDt : T) (w : World) : World :=
  {| sim := integrate fixedDt (sim w);
     accumulator := accumulator w - fixedDt |}.

(** [while (accumulator >= fixedDt) { integrate; accumulator -= fixedDt }],
    with a bound on the number of iterations. *)
Fixpoint catchUp (fuel : nat) (fixedDt : T) (w : World) : option World :=
  match fuel with
  | O => None
  | S fuel' =>
      if accumulator w >= fixedDt
      then catchUp fuel' fixedDt (substep fixedDt w)
      else Some w
  end.

(** Modelled from the spec: [step(fixedDt, elapsedReal)] of the physics
    library, whose code is not among the sources.  "Accumulate
    [elapsedReal], then repeatedly integrate by [fixedDt] while accumulated
    time >= [fixedDt], decrementing the accumulator each iteration, leaving
    the remainder for the next call." *)
Definition step (fuel : nat) (fixedDt elapsedReal : T) (w : World)
  : option World :=
  catchUp fuel fixedDt
    {| sim := sim w; accumulator := accumulator w + elapsedReal |}.

(** [k] substeps in a row. *)
Fixpoint advance (k : nat) (fixedDt : T) (w : World) : World :=
  match k with
  | O => w
  | S k' => advance k' fixedDt (substep fixedDt w)
  end.

End Accumulator.

Arguments World T Sim : clear implicits.

Definition Qn (k : nat) : Q := inject_Z (Z.of_nat k).

(** The loop makes [k] substeps from an accumulator [acc]: [k] is the
    integer part of [acc / fixedDt], or 0 when that is negative. *)
Definition makes (fixedDt acc : Q) (k : nat) : Prop :=
  (acc < (Qn k + 1) * fixedDt)%Q
  /\ (k = 0 \/ (Qn k * fixedDt <= acc)%Q).

(** That number, computed. *)
Definition substeps (fixedDt acc : Q) : nat :=
  Z.to_nat (Qfloor (acc / fixedDt)).

End FixedStep.

(** *** A host whose [world.step] is this accumulator

    The engine's own state is the accumulator, and one integration by
    [fixedDt] takes the bodies to the bodies.  [fuel] bounds the substeps of
    one call; a call that would need more leaves the world as it is. *)

Section AccumulatorHost.
Context {T : Type} {num : Number T} {cmp : AtLeast T}.
Variable fuel : nat.
Variable integrate : T -> list (Body T) -> list (Body T).

(** Modelled from the spec: one call [world.step(fixedDt, elapsed)] is
    [FixedStep.step] on the bodies and the accumulator of the world. *)
Definition stepped (fixedDt elapsed : T) (w : World T T)
  : FixedStep.World T (list (Body T)) :=
  let w0 :=
    {| FixedStep.sim := bodies w; FixedStep.accumulator := engine w |} in
  match FixedStep.step integrate fuel fixedDt elapsed w0 with
  | Some w' => w'
  | None => w0
  end.

(** Modelled from the spec: the physics library as this accumulator around
    [integrate]; the other libraries do nothing. *)
Definition accumulatorHost : Host T :=
  {| Engine := T; newEngine := ofZ 0;
     stepBody := fun fixedDt elapsed w i b =>
       nth i (FixedStep.sim (stepped fixedDt elapsed w)) b;
     stepEngine := fun fixedDt elapsed w =>
       FixedStep.accumulator (stepped fixedDt elapsed w);
     Math_PI := ofZ 3;
     setFromEuler := fun ex ey ez => Quat ex ey ez (ofZ 1);
     View := unit; newView := tt;
     unproject := fun _ v => v;
     normalize := fun v => v;
     desiredVelocity := fun _ => (ofZ 0, ofZ 0);
     eyeTransform := fun v _ => v |}.

End AccumulatorHost.

(** An integration to run the accumulator with: every body that has a mass
    falls freely under the gravity (0,-20,0) of line 157, with no contact
    and no constraint; a body of mass 0 stays where it is. *)
Definition fallBody {T : Type} {num : Number T} {cmp : AtLeast T}
    (fixedDt : T) (b : Body T) : Body T :=
  if (ofZ 0 >= mass b)%js then b
  else
    let v :=
      V3 (x (velocity b)) (y (velocity b) + (- ofZ 20) * fixedDt)%js
         (z (velocity b)) in
    setPosition
      (V3 (x (position b) + x v * fixedDt)%js
          (y (position b) + y v * fixedDt)%js
          (z (position b) + z v * fixedDt)%js)
      (setVelocity v b).

Definition freeFall {T : Type} {num : Number T} {cmp : AtLeast T}
    (fixedDt : T) (bs : list (Body T)) : list (Body T) :=
  map (fallBody fixedDt) bs.

(** The world after setup, in the host of the accumulator with free fall
    and at most 100 substeps a call. *)
Definition fallWorld {T : Type} {num : Number T} {cmp : AtLeast T}
    (random : nat -> T) : World T T :=
  world (start (host := accumulatorHost 100 freeFall) random (ofZ 0)).

(** The same with the player's sphere and the ground alone, as the world is
    after line 185. *)
Definition smallWorld {T : Type} {num : Number T} {cmp : AtLeast T}
  : World T T :=
  let w := fallWorld (fun _ => ofZ 0) in
  {| bodies := firstn 2 (bodies w); constraints := [];
     gravity := gravity w; engine := engine w |}.

(** The integration that only counts the substeps. *)
Definition counting {T : Type} (fixedDt : T) (n : nat) : nat := S n.

(** ** The sun, lines 86-117 of [initThree] *)

Section Sun.
Context {T : Type} {num : Number T} {ord : Order T}.
Local Open Scope js_scope.

(** [Math.PI], [Math.sin], [THREE.MathUtils.degToRad] and
    [Vector3.setFromSphericalCoords] are the libraries'. *)
Variable PI : T.
Variable sin : T -> T.
Variable degToRad : T -> T.
Variable setFromSphericalCoords : T -> T -> T -> Vec3 T.

(** The variables [phi], [theta], [sunPosition] and [lastTime]. *)
Record Sun : Type := {
  phi : T;
  theta : T;
  sunPosition : Vec3 T;
  lastTime : T
}.

Definition multiplyScalar (k : T) (v : Vec3 T) : Vec3 T :=
  V3 (x v * k) (y v * k) (z v * k).

Definition newSun : Sun :=
  {| phi := degToRad (ofZ 90); theta := ofZ 0;
     sunPosition := vzero; lastTime := ofZ 0 |}.

(** [speed] is [params.speed], which the slider of the control panel
    sets. *)
Definition updateSunPosition (speed deltaTime : T) (s : Sun) : Sun :=
  let theta := theta s + speed * deltaTime in
  let theta := if theta > ofZ 2 * PI then theta - ofZ 2 * PI else theta in
  let phi := degToRad (ofZ 60 + ofZ 30 * sin theta) in
  let sunPosition :=
    multiplyScalar (ofZ 450000) (setFromSphericalCoords (ofZ 1) phi theta) in
  {| phi := phi; theta := theta; sunPosition := sunPosition;
     lastTime := lastTime s |}.

(** The [animate(time)] of [initThree], lines 108-115, without the
    rendering. *)
Definition sunAnimate (speed time : T) (s : Sun) : Sun :=
  let deltaTime := (time - lastTime s) / ofZ 1000 in
  let s :=
    {| phi := phi s; theta := theta s; sunPosition := sunPosition s;
       lastTime := time |} in
  updateSunPosition speed deltaTime s.

(** Frames at the given times, the slider left alone. *)
Definition sunFrames (speed : T) (times : list T) (s : Sun) : Sun :=
  fold_left (fun s time => sunAnimate speed time s) times s.

End Sun.

(** Times that do not go back, starting from [t0]. *)
Fixpoint ascending (t0 : Q) (ts : list Q) : Prop :=
  match ts with
  | [] => True
  | t :: ts' => (t0 <= t)%Q /\ ascending t ts'
  end.

(** A sun to run: [Math.PI] as 355/113, a sine that is always 0, and the
    point of the unit sphere replaced by the angles themselves. *)
Definition demoSun : Sun (T := Q) :=
  newSun (fun d => d * (355 # 113) / 180)%Q.

Definition demoSunFrames (speed : Q) (times : list Q) : Sun (T := Q) :=
  sunFrames (355 # 113)%Q (fun _ => 0%Q) (fun d => d * (355 # 113) / 180)%Q
    (fun r p t => V3 r p t) speed times demoSun.

(** The same sun in doubles, with [Math.PI] as the double it is. *)
Definition sun64Frames (speed : binary64) (times : list binary64)
  : Sun (T := binary64) :=
  let pi := S754_finite false 7074237752028440 (-51) in
  sunFrames pi (fun _ => ofZ 0) (fun d => d * (pi / ofZ 180))%js
    (fun r p t => V3 r p t) speed times
    (newSun (fun d => d * (pi / ofZ 180))%js).

(** * Facts *)

(** ** Lists *)

Section ListFacts.
Context {A : Type}.

Lemma alter_length (f : A -> A) i l : length (alter f i l) = length l.
Proof.
  revert i; induction l as [|a l IH]; intros [|i]; simpl; auto.
Qed.

Lemma nth_error_alter_eq (f : A -> A) i l a :
  nth_error l i = Some a -> nth_error (alter f i l) i = Some (f a).
Proof.
  revert i; induction l as [|a0 l IH]; intros [|i]; simpl; try discriminate.
  - now intros [= ->].
  - apply IH.
Qed.

Lemma nth_error_alter_ne (f : A -> A) i j l :
  i <> j -> nth_error (alter f i l) j = nth_error l j.
Proof.
  revert i j; induction l as [|a0 l IH]; intros [|i] [|j] H; simpl; auto.
  - congruence.
Qed.

Lemma nth_error_alter (f : A -> A) i j l :
  nth_error (alter f i l) j =
  if Nat.eqb i j then option_map f (nth_error l j) else nth_error l j.
Proof.
  destruct (Nat.eqb_spec i j) as [->|H].
  - destruct (nth_error l j) eqn:E; simpl.
    + now apply nth_error_alter_eq.
    + apply nth_error_None. rewrite alter_length. now apply nth_error_None.
  - now apply nth_error_alter_ne.
Qed.

Lemma alter_app_last (f : A -> A) l a :
  alter f (length l) (l ++ [a]) = l ++ [f a].
Proof. induction l; simpl; congruence. Qed.

Lemma alter_app_left (f : A -> A) i l l' :
  i < length l -> alter f i (l ++ l') = alter f i l ++ l'.
Proof.
  revert i; induction l as [|a l IH]; intros [|i] H; simpl in *; try lia; auto.
  rewrite IH; auto; lia.
Qed.

Lemma map_alter {B} (g : A -> B) (f : A -> A) i l :
  (forall a, g (f a) = g a) -> map g (alter f i l) = map g l.
Proof.
  intros H; revert i; induction l as [|a l IH]; intros [|i]; simpl;
    rewrite ?H, ?IH; auto.
Qed.

Lemma mapi_from_length {B} (f : nat -> A -> B) i l :
  length (mapi_from f i l) = length l.
Proof. revert i; induction l; intros; simpl; auto. Qed.

Lemma nth_error_mapi_from {B} (f : nat -> A -> B) i l j :
  nth_error (mapi_from f i l) j = option_map (f (i + j)) (nth_error l j).
Proof.
  revert i j; induction l as [|a l IH]; intros i [|j]; simpl; auto.
  - now rewrite Nat.add_0_r.
  - rewrite IH. now rewrite Nat.add_succ_r.
Qed.

End ListFacts.

Lemma bind_Ok {A B} (c : result A) (k : A -> result B) b :
  bind c k = Ok b -> exists a, c = Ok a /\ k a = Ok b.
Proof. destruct c; simpl; [eauto | discriminate]. Qed.

(** ** The frame callback and the click handler *)

Section ProgramFacts.
Context {T : Type} {num : Number T} {host : Host T}.
Local Open Scope js_scope.

Lemma worldStep_length dt e (w : World T Engine) :
  length (bodies (worldStep dt e w)) = length (bodies w).
Proof. apply mapi_from_length. Qed.

Lemma validRefs_length (bs bs' : list (Body T)) refs :
  length bs = length bs' -> validRefs bs refs -> validRefs bs' refs.
Proof. unfold validRefs. now intros ->. Qed.

Lemma validRefs_grow (bs : list (Body T)) b refs :
  validRefs bs refs -> validRefs (bs ++ [b]) (refs ++ [length bs]).
Proof.
  unfold validRefs. intros H. apply Forall_app. split.
  - eapply Forall_impl; [|exact H]. intros r Hr. cbv beta in *. rewrite length_app. simpl. lia.
  - constructor; [|constructor]. cbv beta. rewrite length_app. simpl. lia.
Qed.

Lemma validRefs_more (bs : list (Body T)) b refs :
  validRefs bs refs -> validRefs (bs ++ [b]) refs.
Proof.
  unfold validRefs. intros H.
  eapply Forall_impl; [|exact H]. intros r Hr. cbv beta in *. rewrite length_app. simpl. lia.
Qed.

(** *** Synchronisation *)

Lemma syncFrom_ok (bs : list (Body T)) refs :
  validRefs bs refs ->
  forall n i meshes,
    (i + n = length refs)%nat -> length meshes = length refs ->
    exists ms,
      syncFrom bs refs i n meshes = Ok ms
      /\ length ms = length meshes
      /\ map uid ms = map uid meshes
      /\ (forall j, j < i -> nth_error ms j = nth_error meshes j)
      /\ (forall j r, i <= j -> nth_error refs j = Some r ->
            exists b m, nth_error bs r = Some b
              /\ nth_error meshes j = Some m
              /\ nth_error ms j = Some (copyPose b m)).
Proof.
  intros Hv. induction n as [|n IH]; intros i meshes Hi Hl.
  - exists meshes. simpl. repeat split; auto.
    intros j r Hj Hr.
    assert (j < length refs) by (apply nth_error_Some; congruence). lia.
  - assert (Hi' : i < length refs) by lia.
    destruct (nth_error meshes i) as [m|] eqn:Em.
    2:{ apply nth_error_None in Em. lia. }
    destruct (nth_error refs i) as [r|] eqn:Er.
    2:{ apply nth_error_None in Er. lia. }
    assert (Hr : r < length bs).
    { unfold validRefs in Hv. rewrite Forall_forall in Hv.
      apply Hv. eapply nth_error_In; eauto. }
    destruct (nth_error bs r) as [b|] eqn:Eb.
    2:{ apply nth_error_None in Eb. lia. }
    destruct (IH (S i) (alter (copyPose b) i meshes)) as (ms & E & L & U & P & Q).
    { lia. } { now rewrite alter_length. }
    exists ms. simpl. unfold syncMesh. rewrite Em, Er. simpl. rewrite Eb. simpl.
    rewrite alter_length in L.
    split; [exact E|]. split; [exact L|]. split.
    { rewrite U. now apply map_alter. }
    split.
    + intros j Hj. rewrite P by lia. apply nth_error_alter_ne. lia.
    + intros j r' Hj Hr'. destruct (Nat.eq_dec i j) as [<-|Hne].
      * rewrite Er in Hr'. injection Hr' as <-.
        exists b, m. repeat split; auto.
        rewrite P by lia. now apply nth_error_alter_eq.
      * destruct (Q j r') as (b' & m' & B1 & B2 & B3); auto; try lia.
        exists b', m'. repeat split; auto.
        now rewrite nth_error_alter_ne in B2 by lia.
Qed.

Lemma syncMeshes_ok (bs : list (Body T)) refs meshes :
  validRefs bs refs -> length meshes = length refs ->
  exists ms,
    syncMeshes bs refs meshes = Ok ms
    /\ length ms = length meshes
    /\ map uid ms = map uid meshes
    /\ Mirrors bs refs ms.
Proof.
  intros Hv Hl.
  destruct (syncFrom_ok Hv (length refs) 0 meshes) as (ms & E & L & U & _ & Q);
    auto.
  exists ms. repeat split; auto.
  intros i r Hr. destruct (Q i r) as (b & m & B1 & B2 & B3); auto; try lia.
  exists b, (copyPose b m). repeat split; auto.
Qed.

Lemma Mirrors_pose (bs bs' : list (Body T)) refs meshes :
  (forall r, option_map position (nth_error bs' r)
             = option_map position (nth_error bs r)) ->
  (forall r, option_map quaternion (nth_error bs' r)
             = option_map quaternion (nth_error bs r)) ->
  Mirrors bs refs meshes -> Mirrors bs' refs meshes.
Proof.
  intros Hp Hq M i r Hr. destruct (M i r Hr) as (b & m & B & Mm & P1 & P2).
  specialize (Hp r). specialize (Hq r). rewrite B in Hp, Hq.
  destruct (nth_error bs' r) as [b'|]; simpl in *; try discriminate.
  exists b', m. repeat split; auto; congruence.
Qed.

(** *** [controls.update] *)

Lemma controlsUpdate_disabled dt (s : State) :
  enabled (controls s) = false -> controlsUpdate dt s = s.
Proof. unfold controlsUpdate. now intros ->. Qed.

Lemma controlsUpdate_fields dt (s : State) :
  let s' := controlsUpdate dt s in
  length (bodies (world s')) = length (bodies (world s))
  /\ (forall r, option_map position (nth_error (bodies (world s')) r)
                = option_map position (nth_error (bodies (world s)) r))
  /\ (forall r, option_map quaternion (nth_error (bodies (world s')) r)
                = option_map quaternion (nth_error (bodies (world s)) r))
  /\ constraints (world s') = constraints (world s)
  /\ enabled (controls s') = enabled (controls s)
  /\ lastCallTime s' = lastCallTime s
  /\ sphereShape s' = sphereShape s /\ sphereBody s' = sphereBody s
  /\ balls s' = balls s /\ ballMeshes s' = ballMeshes s
  /\ boxes s' = boxes s /\ boxMeshes s' = boxMeshes s
  /\ stepCalls s' = stepCalls s /\ meshCount s' = meshCount s.
Proof.
  unfold controlsUpdate. destruct (enabled (controls s)) eqn:En; simpl.
  2:{ repeat split; auto. }
  match goal with |- context [nth_error ?l ?i] =>
    destruct (nth_error l i) eqn:E end; simpl;
  (split; [apply alter_length|]);
  (split; [intros r; rewrite nth_error_alter;
           destruct (Nat.eqb _ _); auto;
           destruct (nth_error _ r); reflexivity|]);
  (split; [intros r; rewrite nth_error_alter;
           destruct (Nat.eqb _ _); auto;
           destruct (nth_error _ r); reflexivity|]);
  repeat split; auto.
Qed.

(** *** [animate] *)

Lemma animate_disabled now (s : State) :
  enabled (controls s) = false ->
  animate now s = Ok (setLastCallTime (now / ofZ 1000) s).
Proof.
  intros En. unfold animate. simpl. rewrite En. simpl.
  now rewrite controlsUpdate_disabled.
Qed.


Lemma animate_enabled now (s : State) :
  Inv s -> enabled (controls s) = true ->
  exists s',
    animate now s = Ok s'
    /\ Mirrors (bodies (world s')) (balls s') (ballMeshes s')
    /\ Mirrors (bodies (world s')) (boxes s') (boxMeshes s')
    /\ length (bodies (world s')) = length (bodies (world s))
    /\ balls s' = balls s /\ boxes s' = boxes s
    /\ map uid (ballMeshes s') = map uid (ballMeshes s)
    /\ map uid (boxMeshes s') = map uid (boxMeshes s)
    /\ stepCalls s'
       = stepCalls s ++ [(timeStep, now / ofZ 1000 - lastCallTime s)]
    /\ lastCallTime s' = now / ofZ 1000
    /\ sphereBody s' = sphereBody s /\ sphereShape s' = sphereShape s
    /\ enabled (controls s') = true.
Proof.
  intros [[P1 P2] Vb Vx _ _ _] En.
  set (dt := now / ofZ 1000 - lastCallTime s).
  set (w := worldStep timeStep dt (world s)).
  assert (Lw : length (bodies w) = length (bodies (world s)))
    by apply worldStep_length.
  destruct (@syncMeshes_ok (bodies w) (balls s) (ballMeshes s))
    as (ms1 & E1 & L1 & U1 & M1); auto.
  { eapply validRefs_length; [|exact Vb]. now symmetry. }
  destruct (@syncMeshes_ok (bodies w) (boxes s) (boxMeshes s))
    as (ms2 & E2 & L2 & U2 & M2); auto.
  { eapply validRefs_length; [|exact Vx]. now symmetry. }
  eexists. split.
  { unfold animate. cbn -[syncMeshes worldStep controlsUpdate timeStep].
    rewrite En. cbn -[syncMeshes worldStep controlsUpdate timeStep].
    fold dt. fold w. rewrite E1.
    cbn -[syncMeshes worldStep controlsUpdate timeStep].
    fold w. rewrite E2. cbn -[syncMeshes worldStep controlsUpdate timeStep].
    reflexivity. }
  match goal with |- context [controlsUpdate ?d ?t] =>
    destruct (controlsUpdate_fields d t)
      as (C1 & C2 & C3 & C4 & C5 & C6 & C7 & C8 & C9 & C10 & C11 & C12
          & C13 & C14)
  end.
  simpl in *.
  rewrite C9, C10, C11, C12, C13, C6, C8, C7, C5, C1.
  repeat split; auto.
  - eapply Mirrors_pose; eauto.
  - eapply Mirrors_pose; eauto.
Qed.

(** *** The click handler *)

Lemma click_spawn ev (s : State) player :
  enabled (controls s) = true ->
  nth_error (bodies (world s)) (sphereBody s) = Some player ->
  let d :=
    normalize
      (vsub (unproject (view (controls s)) (V3 (ofZ 0) (ofZ 0) (ofZ 1)))
            (position player)) in
  let p := V3 (x (position player) + x d * reach s)
              (y (position player) + y d * reach s)
              (z (position player) + z d * reach s) in
  let v := V3 (x d * shootVelocity) (y d * shootVelocity)
              (z d * shootVelocity) in
  let ball :=
    setPosition p
      (setVelocity v (addShape (ShSphere ballShape) (newBody (ofZ 1) None))) in
  let mesh :=
    copyPosition p
      (setReceiveShadow true (setCastShadow true (newMesh (meshCount s)))) in
  getShootDirection s = Ok d
  /\ click ev s =
     Ok {| world := setBodies (bodies (world s) ++ [ball]) (world s);
           controls := controls s; lastCallTime := lastCallTime s;
           sphereShape := sphereShape s; sphereBody := sphereBody s;
           balls := balls s ++ [length (bodies (world s))];
           ballMeshes := ballMeshes s ++ [mesh];
           boxes := boxes s; boxMeshes := boxMeshes s;
           stepCalls := stepCalls s; meshCount := S (meshCount s) |}.
Proof.
  intros En Hp d p v ball mesh.
  assert (Hlt : sphereBody s < length (bodies (world s)))
    by (apply nth_error_Some; congruence).
  split.
  { unfold getShootDirection, getBody. rewrite Hp. reflexivity. }
  unfold click. rewrite En. cbn [negb].
  unfold getShootDirection, getBody, updateBody, pushBall, setWorld, addBody,
    setBodies, setBallMeshes.
  cbn [world bodies controls view sphereBody sphereShape ballMeshes balls
       constraints gravity engine boxes boxMeshes stepCalls meshCount
       lastCallTime].
  rewrite (nth_error_app1 _ _ Hlt), Hp. cbn [fromOption bind].
  rewrite alter_app_last.
  cbn [world bodies controls view sphereBody sphereShape ballMeshes balls
       constraints gravity engine boxes boxMeshes stepCalls meshCount
       lastCallTime].
  rewrite (nth_error_app1 _ _ Hlt), Hp. cbn [fromOption bind].
  rewrite alter_app_last.
  cbn [world bodies controls view sphereBody sphereShape ballMeshes balls
       constraints gravity engine boxes boxMeshes stepCalls meshCount
       lastCallTime].
  rewrite nth_error_app2 by lia. rewrite Nat.sub_diag.
  cbn [nth_error fromOption bind].
  rewrite alter_app_last.
  reflexivity.
Qed.

Lemma click_disabled (ev : MouseEvent) (s : State) :
  enabled (controls s) = false -> click ev s = Ok s.
Proof. intros En. unfold click. now rewrite En. Qed.

(** *** The invariant *)

Lemma start_shape random now0 :
  let s := start random now0 in
  boxes s = seq 2 110 /\ balls s = [] /\ ballMeshes s = []
  /\ length (bodies (world s)) = 112 /\ length (boxMeshes s) = 110
  /\ sphereBody s = 0 /\ sphereShape s = Sphere (dec 13 10)
  /\ enabled (controls s) = false /\ stepCalls s = []
  /\ lastCallTime s = now0.
Proof. repeat split; reflexivity. Qed.

Lemma Inv_start random now0 : Inv (start random now0).
Proof.
  destruct (start_shape random now0)
    as (B & Ba & Bm & Lb & Lm & Sb & Ss & _).
  constructor.
  - unfold Parallel. rewrite B, Ba, Bm, Lm, length_seq. auto.
  - unfold validRefs. rewrite Ba. constructor.
  - unfold validRefs. rewrite B, Lb.
    apply Forall_forall. intros r Hr. apply in_seq in Hr. lia.
  - exact Sb.
  - rewrite B, Ba, Lb, length_seq. reflexivity.
  - exact Ss.
Qed.

Lemma handle_Inv e (s s' : State) : Inv s -> handle e s = Ok s' -> Inv s'.
Proof.
  intros I H. destruct e as [now|ev| | |v]; simpl in H.
  - destruct (enabled (controls s)) eqn:En.
    + destruct (animate_enabled now I En)
        as (t & E & M1 & M2 & L & B1 & B2 & U1 & U2 & _ & _ & S1 & S2 & _).
      rewrite E in H. injection H as <-.
      destruct I as [[P1 P2] Vb Vx Pl Ct Rd].
      apply (f_equal (@length _)) in U1, U2. rewrite !length_map in U1, U2.
      constructor.
      * unfold Parallel. rewrite B1, B2, U1, U2. auto.
      * rewrite B1. eapply validRefs_length; [|exact Vb]. now symmetry.
      * rewrite B2. eapply validRefs_length; [|exact Vx]. now symmetry.
      * congruence.
      * congruence.
      * congruence.
    + rewrite animate_disabled in H by exact En. injection H as <-.
      destruct I. constructor; auto.
  - destruct (enabled (controls s)) eqn:En.
    + destruct I as [[P1 P2] Vb Vx Pl Ct Rd].
      destruct (nth_error (bodies (world s)) (sphereBody s)) as [pl|] eqn:Ep.
      2:{ apply nth_error_None in Ep. lia. }
      destruct (click_spawn ev s En Ep) as [_ E]. rewrite E in H.
      injection H as <-.
      constructor; simpl.
      * unfold Parallel; simpl. rewrite !length_app; simpl. split; lia.
      * now apply validRefs_grow.
      * now apply validRefs_more.
      * exact Pl.
      * rewrite !length_app; simpl. lia.
      * exact Rd.
    + unfold click in H. rewrite En in H. simpl in H. now injection H as <-.
  - injection H as <-. destruct I. constructor; auto.
  - injection H as <-. destruct I. constructor; auto.
  - injection H as <-. destruct I. constructor; auto.
Qed.

Lemma reachable_Inv random now0 (s : State) :
  reachable random now0 s -> Inv s.
Proof.
  induction 1 as [|s e s' _ IH H].
  - apply Inv_start.
  - eapply handle_Inv; eauto.
Qed.

Lemma Inv_player (s : State) :
  Inv s -> exists player, nth_error (bodies (world s)) (sphereBody s) = Some player.
Proof.
  intros [_ _ _ Pl Ct _].
  destruct (nth_error (bodies (world s)) (sphereBody s)) eqn:E; eauto.
  apply nth_error_None in E. lia.
Qed.

(** No handler fails. *)
Lemma handle_total e (s : State) : Inv s -> exists s', handle e s = Ok s'.
Proof.
  intros I. destruct e as [now|ev| | |v]; simpl; eauto.
  - destruct (enabled (controls s)) eqn:En.
    + destruct (animate_enabled now I En) as (t & E & _). eauto.
    + rewrite animate_disabled by exact En. eauto.
  - destruct (enabled (controls s)) eqn:En.
    + destruct (Inv_player I) as [pl Ep].
      destruct (click_spawn ev s En Ep) as [_ E]. eauto.
    + unfold click. rewrite En. simpl. eauto.
Qed.

End ProgramFacts.

(** ** Runs *)

Section RunFacts.
Context {T : Type} {num : Number T} {host : Host T}.
Local Open Scope js_scope.

Lemma run_app es1 es2 (s : State) :
  run (es1 ++ es2) s = (s1 <- run es1 s ;; run es2 s1).
Proof.
  revert s; induction es1 as [|e es1 IH]; intros s; simpl; auto.
  destruct (handle e s); simpl; auto.
Qed.

Lemma run_Inv es (s s' : State) : Inv s -> run es s = Ok s' -> Inv s'.
Proof.
  revert s; induction es as [|e es IH]; intros s I H; simpl in H.
  - now injection H as <-.
  - apply bind_Ok in H as (s1 & H1 & H2). eapply IH; [|exact H2].
    eapply handle_Inv; eauto.
Qed.

Lemma frames_disabled nows (s : State) :
  enabled (controls s) = false ->
  run (map Frame nows) s = Ok (fold_left tick nows s).
Proof.
  revert s; induction nows as [|now nows IH]; intros s En; simpl; auto.
  rewrite animate_disabled by exact En. simpl. now apply IH.
Qed.

Lemma ticks_fields nows (s : State) :
  let s' := fold_left tick nows s in
  world s' = world s /\ controls s' = controls s
  /\ stepCalls s' = stepCalls s
  /\ balls s' = balls s /\ ballMeshes s' = ballMeshes s
  /\ boxes s' = boxes s /\ boxMeshes s' = boxMeshes s.
Proof.
  revert s; induction nows as [|now nows IH]; intros s; simpl.
  - repeat split.
  - destruct (IH (tick s now)) as (A & B & C & D & E & F & G).
    simpl in *. repeat split; assumption.
Qed.

Lemma ticks_last nows prev (s : State) :
  lastCallTime (fold_left tick (nows ++ [prev]) s) = prev / ofZ 1000.
Proof. rewrite fold_left_app. reflexivity. Qed.

Lemma animate_clock now (s s' : State) :
  animate now s = Ok s' -> lastCallTime s' = now / ofZ 1000.
Proof.
  unfold animate. intros H. apply bind_Ok in H as (t & H1 & H2).
  injection H2 as <-.
  destruct (controlsUpdate_fields (now / ofZ 1000 - lastCallTime s) t)
    as (_ & _ & _ & _ & _ & C & _).
  rewrite C. clear C.
  cbn -[syncMeshes worldStep controlsUpdate timeStep] in H1.
  destruct (enabled (controls s)).
  - apply bind_Ok in H1 as (ms1 & _ & H1).
    apply bind_Ok in H1 as (ms2 & _ & H1). now injection H1 as <-.
  - now injection H1 as <-.
Qed.

(** ** The properties *)

(** C1.  While [enabled] is false, a frame does not call [world.step] and
    leaves the world, hence the position and orientation of every body, as
    it was; so does any number of frames in a row. *)
Theorem frozen_while_disabled (s : State) (nows : list T) :
  enabled (controls s) = false ->
  exists s',
    run (map Frame nows) s = Ok s'
    /\ stepCalls s' = stepCalls s
    /\ world s' = world s
    /\ enabled (controls s') = false.
Proof.
  intros En. exists (fold_left tick nows s).
  destruct (ticks_fields nows s) as (W & C & L & _).
  split; [now apply frames_disabled|].
  repeat split; congruence.
Qed.

(** C5.  A click received while [enabled] is false returns at once: the
    handler succeeds and the state it leaves is the state it found, with no
    body added and no collection changed. *)
Theorem click_ignored_while_disabled (ev : MouseEvent) (s : State) :
  enabled (controls s) = false -> click ev s = Ok s.
Proof. apply click_disabled. Qed.

(** C9.  Every frame stores its own time in [lastCallTime], whether the
    controller is enabled or not.  So when a paused program has seen frames,
    the last of them at time [prev], and is locked again, the next frame
    passes [world.step] the time since [prev] only, in the one call it
    makes. *)
Theorem pause_is_not_caught_up random now0 (s : State)
    (nows : list T) (prev now : T) :
  reachable random now0 s ->
  enabled (controls s) = false ->
  (forall t (u u' : State),
      animate t u = Ok u' -> lastCallTime u' = t / ofZ 1000)
  /\ exists s',
       run (map Frame (nows ++ [prev]) ++ [Lock; Frame now]) s = Ok s'
       /\ stepCalls s'
          = stepCalls s
            ++ [(timeStep, now / ofZ 1000 - prev / ofZ 1000)].
Proof.
  intros R En. split; [intros t u u'; apply animate_clock|].
  apply reachable_Inv in R.
  pose proof (frames_disabled (nows ++ [prev]) s En) as F.
  destruct (ticks_fields (nows ++ [prev]) s) as (W & C & L & _).
  pose proof (ticks_last nows prev s) as Lt.
  set (s1 := fold_left tick (nows ++ [prev]) s) in *.
  assert (I1 : Inv s1) by (eapply run_Inv; eauto).
  assert (I2 : Inv (onLock s1)) by (destruct I1; constructor; auto).
  destruct (animate_enabled now I2 eq_refl)
    as (s' & E & _ & _ & _ & _ & _ & _ & _ & Sc & _).
  exists s'. rewrite run_app, F. simpl. rewrite E. simpl.
  split; [reflexivity|].
  rewrite Sc. simpl. now rewrite L, Lt.
Qed.

(** C8, as the program has it.  Each proxy collection is as long as the
    body collection it mirrors ([ballMeshes] and [balls], [boxMeshes] and
    [boxes]); the player sphere and the ground plane are bodies of the world
    with no proxy.  A frame of the enabled program copies, after the physics
    step, the position and orientation of body [i] into proxy [i] for every
    [i] of both pairs; a frame of the disabled program leaves the proxies
    alone.  No event reorders or removes a body or a proxy: the boxes stay,
    and the balls and their proxies grow at the end, together with the
    world's bodies. *)
Theorem proxies_mirror_bodies random now0 (s : State) :
  reachable random now0 s ->
  Parallel s
  /\ length (bodies (world s)) = (2 + length (boxes s) + length (balls s))%nat
  /\ (forall now, exists s',
        animate now s = Ok s'
        /\ (enabled (controls s) = true ->
            Mirrors (bodies (world s')) (balls s') (ballMeshes s')
            /\ Mirrors (bodies (world s')) (boxes s') (boxMeshes s'))
        /\ (enabled (controls s) = false ->
            ballMeshes s' = ballMeshes s /\ boxMeshes s' = boxMeshes s))
  /\ (forall e s', handle e s = Ok s' ->
        boxes s' = boxes s
        /\ map uid (boxMeshes s') = map uid (boxMeshes s)
        /\ exists newBalls newMeshes,
             balls s' = balls s ++ newBalls
             /\ map uid (ballMeshes s') = map uid (ballMeshes s) ++ newMeshes
             /\ length newBalls = length newMeshes
             /\ length (bodies (world s'))
                = (length (bodies (world s)) + length newBalls)%nat).
Proof.
  intros R. apply reachable_Inv in R. pose proof R as I.
  destruct R as [Pa Vb Vx Pl Ct Rd].
  split; [exact Pa|]. split; [exact Ct|]. split.
  - intros now. destruct (enabled (controls s)) eqn:En.
    + destruct (animate_enabled now I En) as (s' & E & M1 & M2 & _).
      exists s'. repeat split; auto; discriminate.
    + exists (setLastCallTime (now / ofZ 1000) s).
      split; [now apply animate_disabled|].
      split; [discriminate|]. intros _. split; reflexivity.
  - intros e s' H.
    assert (Same : forall t : State,
               boxes t = boxes s -> boxMeshes t = boxMeshes s ->
               balls t = balls s -> ballMeshes t = ballMeshes s ->
               length (bodies (world t)) = length (bodies (world s)) ->
               boxes t = boxes s
               /\ map uid (boxMeshes t) = map uid (boxMeshes s)
               /\ exists newBalls newMeshes : list nat,
                    balls t = balls s ++ newBalls
                    /\ map uid (ballMeshes t)
                       = map uid (ballMeshes s) ++ newMeshes
                    /\ length newBalls = length newMeshes
                    /\ length (bodies (world t))
                       = (length (bodies (world s)) + length newBalls)%nat).
    { intros t A B C D E. rewrite A, B, C, D, E.
      split; [reflexivity|]. split; [reflexivity|].
      exists [], []. rewrite !app_nil_r. simpl. auto. }
    destruct e as [now|ev| | |v]; simpl in H.
    + destruct (enabled (controls s)) eqn:En.
      * destruct (animate_enabled now I En)
          as (t & E & _ & _ & L & B1 & B2 & U1 & U2 & _).
        rewrite E in H. injection H as <-.
        split; [exact B2|]. split; [exact U2|].
        exists [], []. rewrite !app_nil_r, Nat.add_0_r. repeat split; auto.
      * rewrite animate_disabled in H by exact En. injection H as <-.
        now apply Same.
    + destruct (enabled (controls s)) eqn:En.
      * destruct (Inv_player I) as [pl Ep].
        destruct (click_spawn ev s En Ep) as [_ E]. rewrite E in H.
        injection H as <-. simpl.
        split; [reflexivity|]. split; [reflexivity|].
        eexists [_], [_]. rewrite map_app, length_app. simpl. auto.
      * rewrite click_disabled in H by exact En.
        injection H as <-. now apply Same.
    + injection H as <-. now apply Same.
    + injection H as <-. now apply Same.
    + injection H as <-. now apply Same.
Qed.

End RunFacts.

(** ** Shooting, in exact arithmetic *)

Section Shooting.
Context {host : Host Q}.



(** C4, as the program has it.  A click on the enabled program gives the new
    ball the velocity [shootDirection * 15], where the direction is the
    screen centre unprojected through the camera, seen from the player, and
    normalised; the mouse coordinates of the click play no part.  In exact
    arithmetic the squared speed is 15^2 times the squared length of the
    direction, whatever [normalize] returned, and when the direction is
    (0,0,1) the velocity is (0,0,15). *)
Theorem ball_velocity_follows_view random now0 (s : State) (ev : MouseEvent) :
  reachable random now0 s ->
  enabled (controls s) = true ->
  exists s' d player ball,
    click ev s = Ok s'
    /\ getBody (sphereBody s) s = Ok player
    /\ d = normalize
             (vsub (unproject (view (controls s))
                      (V3 (ofZ 0) (ofZ 0) (ofZ 1)))
                   (position player))
    /\ getShootDirection s = Ok d
    /\ bodies (world s') = bodies (world s) ++ [ball]
    /\ velocity ball
       = V3 (x d * ofZ 15)%js (y d * ofZ 15)%js (z d * ofZ 15)%js
    /\ (forall ev', click ev' s = click ev s)
    /\ (norm2 (velocity ball) == 15 * 15 * norm2 d)%Q
    /\ (veq d (V3 0%Q 0%Q 1%Q) -> veq (velocity ball) (V3 0%Q 0%Q 15%Q)).
Proof.
  intros R En. apply reachable_Inv in R.
  destruct (Inv_player R) as [player Ep].
  destruct (click_spawn ev s En Ep) as [Ed Ec].
  eexists _, _, player, _. split; [exact Ec|].
  split; [unfold getBody; now rewrite Ep|].
  split; [reflexivity|]. split; [exact Ed|]. split; [reflexivity|].
  split; [reflexivity|]. split.
  { intros ev'. destruct (click_spawn ev' s En Ep) as [_ Ec'].
    now rewrite Ec, Ec'. }
  cbn [velocity setPosition setVelocity]. unfold shootVelocity.
  match goal with |- context [normalize ?v] => generalize (normalize v) end.
  intros d. unfold norm2, veq. cbn [x y z].
  change (@mul Q exact) with Qmult. change (@ofZ Q exact 15) with 15%Q.
  split.
  - ring.
  - intros (Hx & Hy & Hz). rewrite Hx, Hy, Hz. repeat split; ring.
Qed.

End Shooting.

(** ** Shooting, in doubles *)

Lemma aimed64_reachable target :
  reachable (fun _ => ofZ 0) (ofZ 0) (aimed64 target).
Proof.
  eapply reach_event with (e := Input (target : @View binary64 aimHost)).
  - eapply reach_event with (e := Lock); [apply reach_start|reflexivity].
  - reflexivity.
Qed.


(** C4, counterexample.  The player faces +Z after a turn by pi about the
    vertical axis: the direction is (-1.2246467991473532e-16, 0, 1) and a
    click on the enabled program gives the ball the velocity
    (-1.83697019872103e-15, 0, 15), which is not (0,0,15) and whose length
    is more than 15. *)
Lemma ball_speed_is_not_exactly_15 :
  let s := aimed64 turnedTarget in
  reachable (fun _ => ofZ 0) (ofZ 0) s
  /\ enabled (controls s) = true
  /\ getShootDirection s
     = Ok (V3 (S754_finite true 4967757600021511 (-105)) (ofZ 0) (ofZ 1))
  /\ exists s' ball,
       click click64 s = Ok s'
       /\ bodies (world s') = bodies (world s) ++ [ball]
       /\ velocity ball
          = V3 (S754_finite true 4657272750020167 (-101)) (ofZ 0) (ofZ 15)
       /\ velocity ball <> V3 (ofZ 0) (ofZ 0) (ofZ 15)
       /\ exists v, toQ3 (velocity ball) = Some v
                    /\ (15 * 15 < norm2 v)%Q.
Proof.
  intros s.
  pose proof (aimed64_reachable turnedTarget) as R. fold s in R.
  assert (En : enabled (controls s) = true) by (vm_compute; reflexivity).
  destruct (Inv_player (reachable_Inv R)) as [player Ep].
  destruct (click_spawn click64 s En Ep) as [Ed Ec].
  assert (Hp : position player = V3 (ofZ 0) (ofZ 5) (ofZ 0)).
  { vm_compute in Ep. injection Ep as <-. vm_compute. reflexivity. }
  split; [exact R|]. split; [exact En|].
  rewrite Ed, Hp.
  split; [unfold s; vm_compute; reflexivity|].
  eexists _, _. split; [exact Ec|].
  cbn [world bodies setBodies velocity setPosition setVelocity].
  rewrite Hp. unfold s.
  split; [reflexivity|].
  split; [vm_compute; reflexivity|].
  split; [vm_compute; discriminate|].
  eexists. split; vm_compute; reflexivity.
Qed.

(** X15.  In doubles, facing +Z after a turn by pi about the vertical axis:
    the direction is not exactly a unit vector, its squared length being
    more than 1, and the ball starts outside the player's sphere, its centre
    more than 1.3 + 0.2 from the player's centre (0,5,0). *)
Lemma ball_outside_player_in_doubles :
  let s := aimed64 turnedTarget in
  exists s' d player ball qd qb,
    click click64 s = Ok s'
    /\ getShootDirection s = Ok d
    /\ getBody (sphereBody s) s = Ok player
    /\ bodies (world s') = bodies (world s) ++ [ball]
    /\ position player = V3 (ofZ 0) (ofZ 5) (ofZ 0)
    /\ toQ3 d = Some qd
    /\ (1 < norm2 qd)%Q
    /\ toQ3 (position ball) = Some qb
    /\ (((13 # 10) + (2 # 10)) * ((13 # 10) + (2 # 10))
        < dist2 qb (V3 0 5 0))%Q.
Proof.
  intros s.
  pose proof (aimed64_reachable turnedTarget) as R. fold s in R.
  assert (En : enabled (controls s) = true) by (vm_compute; reflexivity).
  destruct (Inv_player (reachable_Inv R)) as [player Ep].
  destruct (click_spawn click64 s En Ep) as [Ed Ec].
  assert (Hp : position player = V3 (ofZ 0) (ofZ 5) (ofZ 0)).
  { vm_compute in Ep. injection Ep as <-. vm_compute. reflexivity. }
  eexists _, _, player, _, _, _. split; [exact Ec|]. split; [exact Ed|].
  split; [unfold getBody; now rewrite Ep|].
  cbn [world bodies setBodies position setPosition].
  rewrite Hp. unfold reach, s.
  split; [reflexivity|]. split; [reflexivity|].
  split; [vm_compute; reflexivity|].
  split; [vm_compute; reflexivity|].
  split; [vm_compute; reflexivity|].
  vm_compute; reflexivity.
Qed.

(** ** The linked boxes *)

Lemma linkY_step (i : nat) :
  (linkY (T := Q) i - linkY (S i) == 2 * size + 2 * space)%Q.
Proof.
  unfold linkY, linkN.
  change (@add Q exact) with Qplus. change (@sub Q exact) with Qminus.
  change (@mul Q exact) with Qmult. change (@ofZ Q exact) with inject_Z.
  rewrite (Nat2Z.inj_succ i). unfold Z.succ. rewrite inject_Z_plus.
  generalize (inject_Z (Z.of_nat i)). intros q.
  change (inject_Z 2) with 2%Q. change (inject_Z 1) with 1%Q.
  ring.
Qed.

(** C6.  [initCannon] ends with a chain of [N] = 10 links, the bodies 102 to
    111 of the world; the first has mass 0, the others mass 0.3, all with
    linear and angular damping 0.01.  The world's constraints are, for each
    link [i] from 1 to 9 and in this order, the two point-to-point
    constraints that tie link [i] at [(-size, size+space, 0)] to link [i-1]
    at [(-size, -size-space, 0)], and at [(size, size+space, 0)] to
    [(size, -size-space, 0)]; there is no other.  The links go down: each
    lies lower than the one before. *)
Theorem chain_of_ten_links :
  (forall T (num : Number T) (host : Host T) random now0,
      let s : State := start random now0 in
      linkN = 10
      /\ skipn 100 (boxes s) = seq 102 linkN
      /\ length (bodies (world s)) = 102 + linkN
      /\ map (fun b => (mass b, linearDamping b, angularDamping b))
           (skipn 102 (bodies (world s)))
         = map (fun i => (if Nat.eqb i 0 then ofZ 0 else dec 3 10,
                          Some (dec 1 100), Some (dec 1 100)))
             (seq 0 linkN)
      /\ constraints (world s)
         = flat_map (linkConstraints 102) (seq 1 (linkN - 1))
      /\ (forall first i,
             linkConstraints first i
             = [ PointToPointConstraint (InWorld (first + i))
                   (V3 (- size) (size + space) (ofZ 0))%js
                   (InWorld (first + i - 1))
                   (V3 (- size) (- size - space) (ofZ 0))%js;
                 PointToPointConstraint (InWorld (first + i))
                   (V3 size (size + space) (ofZ 0))%js
                   (InWorld (first + i - 1))
                   (V3 size (- size - space) (ofZ 0))%js ]))
  /\ (forall i, (linkY (T := Q) (S i) < linkY i)%Q).
Proof.
  split.
  - intros T num host random now0 s. repeat split; reflexivity.
  - intros i. pose proof (linkY_step i) as H.
    assert (0 < 2 * size (T := Q) + 2 * space)%Q by (vm_compute; reflexivity).
    lra.
Qed.

Lemma coincideb_Coincide bs c : coincideb bs c = true -> Coincide bs c.
Proof.
  unfold coincideb, Coincide, veqb, veq.
  destruct (anchorA bs c) as [a|]; [|discriminate].
  destruct (anchorB bs c) as [b|]; [|discriminate].
  intros H. apply andb_true_iff in H as [H Hz].
  apply andb_true_iff in H as [Hx Hy].
  apply Qeq_bool_iff in Hx, Hy, Hz. exists a, b. repeat split; assumption.
Qed.

Lemma forallb_Forall {A} (f : A -> bool) (P : A -> Prop) l :
  (forall a, f a = true -> P a) -> forallb f l = true -> Forall P l.
Proof.
  intros H. induction l as [|a l IH]; simpl; intros E; constructor;
    apply andb_true_iff in E as [E1 E2]; auto.
Qed.

(** C10, counterexample.  In doubles the anchors of the first constraint,
    between link 1 (body 103) and link 0 (body 102), differ in height:
    11.500000000000002 on link 1 and 11.5 on link 0. *)
Lemma chain_anchors_differ_in_doubles :
  let bs := bodies (world start64) in
  let c :=
    PointToPointConstraint (InWorld 103) pivotA1 (InWorld 102) pivotB1 in
  nth_error (constraints (world start64)) 0 = Some c
  /\ option_map (@y _) (anchorA bs c)
     = Some (S754_finite false 6473924464345089 (-49))
  /\ option_map (@y _) (anchorB bs c)
     = Some (S754_finite false 6473924464345088 (-49))
  /\ sameb bs c = false.
Proof.
  cbv zeta. split; [|split; [|split]]; vm_compute; reflexivity.
Qed.

(** C10, as the program has it.  Link [i] is placed at
    [(5, (N-i)*(size*2 + 2*space) + size*2 + space, 0)], in the identity
    orientation.  In exact arithmetic consecutive links are [2*size +
    2*space] apart and the two anchors of every constraint are the same
    point.  In the doubles the program computes with, the two anchors of
    every constraint are within 2^-49 of each other in each coordinate. *)
Theorem chain_anchors_at_setup :
  (forall T (num : Number T) (host : Host T) random now0,
      let s : State := start random now0 in
      map (fun b => (position b, quaternion b)) (skipn 102 (bodies (world s)))
      = map (fun i => (V3 (ofZ 5) (linkY i) (ofZ 0), qidentity))
          (seq 0 linkN))
  /\ (forall i, (linkY (T := Q) i - linkY (S i) == 2 * size + 2 * space)%Q)
  /\ (forall (host : Host Q) random now0,
         let s : State := start random now0 in
         Forall (Coincide (bodies (world s))) (constraints (world s)))
  /\ (forall (host : Host binary64) random now0,
         let s : State := start random now0 in
         forallb (nearb (2 ^ (-49)) (bodies (world s))) (constraints (world s))
         = true).
Proof.
  split; [|split; [|split]].
  - intros T num host random now0 s. reflexivity.
  - exact linkY_step.
  - intros host random now0 s.
    apply forallb_Forall with (f := coincideb (bodies (world s))).
    + apply coincideb_Coincide.
    + vm_compute. reflexivity.
  - intros host random now0 s. vm_compute. reflexivity.
Qed.

(** C8, counterexample.  After setup the world has 112 bodies and the two
    proxy collections 110 meshes together; and a frame of the program as it
    starts, not yet enabled, leaves the proxy of the first chain link at the
    origin while the link itself is at (5, 12.05, 0). *)
Lemma proxies_do_not_cover_world :
  length (ballMeshes demoStart) + length (boxMeshes demoStart)
    <> length (bodies (world demoStart))
  /\ exists s',
       animate (T := Q) 16%Q demoStart = Ok s'
       /\ ~ Mirrors (bodies (world s')) (boxes s') (boxMeshes s').
Proof.
  split.
  - intros H. vm_compute in H. discriminate.
  - eexists. split; [apply animate_disabled; reflexivity|].
    intros M.
    assert (E : nth_error
                  (boxes (setLastCallTime (16%Q / ofZ 1000)%js demoStart)) 100
                = Some 102) by (vm_compute; reflexivity).
    destruct (M 100 102 E) as (b & m & Hb & Hm & Hp & _).
    vm_compute in Hb, Hm.
    injection Hb as <-. injection Hm as <-.
    vm_compute in Hp. discriminate.
Qed.

(** ** The fixed-step accumulator *)

Module FixedStepFacts.
Import FixedStep.

Section AccumulatorFacts.
Variable Sim : Type.
Variable integrate : Q -> Sim -> Sim.
Local Open Scope Q_scope.

Lemma Qn_S k : Qn (S k) == Qn k + 1.
Proof.
  unfold Qn. rewrite Nat2Z.inj_succ. unfold Z.succ.
  now rewrite inject_Z_plus.
Qed.

Lemma Qn_add j k : Qn (j + k) == Qn j + Qn k.
Proof. unfold Qn. now rewrite Nat2Z.inj_add, inject_Z_plus. Qed.

Lemma Qn_nonneg k : 0 <= Qn k.
Proof.
  unfold Qn. change 0 with (inject_Z 0). rewrite <- Zle_Qle. lia.
Qed.

Lemma Qn_lt j k : (j < k)%nat -> Qn j + 1 <= Qn k.
Proof.
  intros H. unfold Qn. change 1 with (inject_Z 1).
  rewrite <- inject_Z_plus, <- Zle_Qle. lia.
Qed.

Lemma advance_sim k dt (w : World Q Sim) :
  sim (advance integrate k dt w) = Nat.iter k (integrate dt) (sim w).
Proof.
  revert w; induction k as [|k IH]; intros w; simpl; auto.
  rewrite IH. simpl. clear IH.
  induction k as [|k IH]; simpl; congruence.
Qed.

Lemma advance_accumulator k dt (w : World Q Sim) :
  accumulator (advance integrate k dt w) == accumulator w - Qn k * dt.
Proof.
  revert w; induction k as [|k IH]; intros w.
  - cbn [advance]. change (Qn 0) with 0. ring.
  - change (advance integrate (S k) dt w)
      with (advance integrate k dt (substep integrate dt w)).
    rewrite IH, Qn_S. cbn [substep accumulator].
    change (@sub Q exact) with Qminus. ring.
Qed.

Lemma makes_unique_step dt acc k :
  0 < dt -> makes dt acc (S k) -> dt <= acc /\ makes dt (acc - dt) k.
Proof.
  unfold makes. rewrite Qn_S. intros Hdt [H1 [H2|H2]]; [discriminate|].
  assert (0 <= Qn k * dt)
    by (apply Qmult_le_0_compat; [apply Qn_nonneg|lra]).
  split; [lra|]. split; [lra|].
  destruct k as [|k]; [now left|right]. lra.
Qed.

(** With enough fuel the loop stops by its own test, after the substeps the
    accumulator allows. *)
Lemma catchUp_advance dt k :
  0 < dt ->
  forall (w : World Q Sim) fuel,
    makes dt (accumulator w) k -> (k < fuel)%nat ->
    catchUp integrate fuel dt w = Some (advance integrate k dt w).
Proof.
  intros Hdt. induction k as [|k IH]; intros w fuel M F.
  - destruct fuel as [|fuel]; [lia|]. cbn [catchUp advance].
    change (accumulator w >= dt)%js with (Qle_bool dt (accumulator w)).
    destruct M as [M _]. change (Qn 0) with 0 in M.
    destruct (Qle_bool dt (accumulator w)) eqn:E; auto.
    apply Qle_bool_iff in E. lra.
  - destruct fuel as [|fuel]; [lia|]. cbn [catchUp advance].
    change (accumulator w >= dt)%js with (Qle_bool dt (accumulator w)).
    destruct (makes_unique_step Hdt M) as [L M'].
    apply Qle_bool_iff in L. rewrite L.
    apply IH; [|lia].
    cbn [substep accumulator]. exact M'.
Qed.

(** The number of substeps is the integer part of the quotient. *)
Lemma makes_substeps dt acc : 0 < dt -> makes dt acc (substeps dt acc).
Proof.
  intros Hdt. unfold substeps.
  pose proof (Qfloor_le (acc / dt)) as F1.
  pose proof (Qlt_floor (acc / dt)) as F2.
  rewrite inject_Z_plus in F2. change (inject_Z 1) with 1 in F2.
  assert (E : acc / dt * dt == acc) by (field; lra).
  destruct (Qlt_le_dec acc dt) as [L|L].
  - assert (Hq : acc / dt < 1).
    { apply Qlt_shift_div_r; lra. }
    assert (Hf : (Qfloor (acc / dt) <= 0)%Z).
    { assert (H1 : inject_Z (Qfloor (acc / dt)) < inject_Z 1)
        by (change (inject_Z 1) with 1; lra).
      rewrite <- Zlt_Qlt in H1. lia. }
    replace (Z.to_nat (Qfloor (acc / dt))) with 0%nat by lia.
    split; [change (Qn 0) with 0; lra|now left].
  - assert (Hq : 0 <= acc / dt).
    { apply Qle_shift_div_l; lra. }
    assert (Hf : (0 <= Qfloor (acc / dt))%Z).
    { change 0%Z with (Qfloor 0). now apply Qfloor_resp_le. }
    unfold makes, Qn.
    rewrite Z2Nat.id by exact Hf.
    split.
    + apply Qle_lt_trans with (acc / dt * dt).
      * apply Qle_lteq. right. symmetry. exact E.
      * now apply Qmult_lt_r.
    + right. apply Qle_trans with (acc / dt * dt).
      * now apply Qmult_le_r.
      * apply Qle_lteq. right. exact E.
Qed.

Lemma makes_le dt acc acc' j k :
  0 < dt -> acc' <= acc -> makes dt acc j -> makes dt acc' k -> (k <= j)%nat.
Proof.
  intros Hdt E [A1 _] [_ B2].
  destruct (Nat.le_gt_cases k j) as [L|L]; [exact L|exfalso].
  destruct B2 as [->|B2]; [lia|].
  pose proof (Qn_lt L) as H.
  assert ((Qn j + 1) * dt <= Qn k * dt)
    by (apply Qmult_le_compat_r; [exact H|lra]).
  lra.
Qed.

Lemma makes_unique dt acc acc' j k :
  0 < dt -> acc == acc' -> makes dt acc j -> makes dt acc' k -> j = k.
Proof.
  intros Hdt E A B.
  assert (E1 : acc' <= acc) by lra.
  assert (E2 : acc <= acc') by lra.
  pose proof (makes_le Hdt E1 A B).
  pose proof (makes_le Hdt E2 B A).
  lia.
Qed.

Lemma makes_split dt acc r b k1 k2 :
  0 < dt -> 0 <= b ->
  r == acc - Qn k1 * dt ->
  makes dt acc k1 -> makes dt (r + b) k2 ->
  makes dt (acc + b) (k1 + k2).
Proof.
  unfold makes. rewrite Qn_add. intros Hdt Hb Hr [A1 A2] [B1 B2].
  split; [lra|].
  destruct B2 as [->|B2].
  - rewrite Nat.add_0_r. destruct A2 as [->|A2]; [now left|right].
    change (Qn 0) with 0 in *. lra.
  - right. lra.
Qed.

(** One call of [step]: as many substeps as the accumulated time holds. *)
Lemma step_advance dt e (w : World Q Sim) fuel :
  0 < dt ->
  (substeps dt (accumulator w + e) < fuel)%nat ->
  step integrate fuel dt e w
  = Some (advance integrate (substeps dt (accumulator w + e)) dt
            {| sim := sim w; accumulator := accumulator w + e |}).
Proof.
  intros Hdt F. unfold step. change (@add Q exact) with Qplus.
  apply catchUp_advance; [exact Hdt| |exact F].
  cbn [accumulator]. now apply makes_substeps.
Qed.

End AccumulatorFacts.

End FixedStepFacts.

(** *** The accumulator as [world.step] *)

Lemma skipn_nth {A} (l : list A) n d :
  n < length l -> skipn n l = nth n l d :: skipn (S n) l.
Proof.
  revert n; induction l as [|a l IH]; intros n H; simpl in H; [lia|].
  destruct n as [|n]; [reflexivity|].
  change (skipn n l = nth n l d :: skipn (S n) l). apply IH. lia.
Qed.

Lemma mapi_nth {A} (l' l : list A) n :
  length l + n = length l' ->
  mapi_from (fun i b => nth i l' b) n l = skipn n l'.
Proof.
  revert n; induction l as [|a l IH]; intros n H; simpl in *.
  - subst n. now rewrite skipn_all.
  - rewrite IH by lia. symmetry. apply skipn_nth. lia.
Qed.

Lemma iter_length {A} (f : list A -> list A) k l :
  (forall bs, length (f bs) = length bs) ->
  length (Nat.iter k f l) = length l.
Proof.
  intros H. induction k as [|k IH]; simpl; [reflexivity|].
  now rewrite H.
Qed.

Section AccumulatorHostFacts.
Context {T : Type} {num : Number T} {cmp : AtLeast T}.
Variable fuel : nat.
Variable integrate : T -> list (Body T) -> list (Body T).

Lemma worldStep_stepped dt e (w : World T T) :
  length (FixedStep.sim (stepped fuel integrate dt e w)) = length (bodies w) ->
  bodies (worldStep (host := accumulatorHost fuel integrate) dt e w)
  = FixedStep.sim (stepped fuel integrate dt e w)
  /\ engine (worldStep (host := accumulatorHost fuel integrate) dt e w)
     = FixedStep.accumulator (stepped fuel integrate dt e w).
Proof.
  intros L. unfold worldStep.
  cbn [bodies engine stepBody stepEngine accumulatorHost].
  split; [|reflexivity].
  rewrite (@mapi_nth _ (FixedStep.sim (stepped fuel integrate dt e w))
             (bodies w) 0).
  - reflexivity.
  - rewrite L. apply Nat.add_0_r.
Qed.

End AccumulatorHostFacts.

(** One call of [world.step] in exact arithmetic. *)
Lemma worldStep_substeps fuel
    (integrate : Q -> list (Body Q) -> list (Body Q)) (w : World Q Q) dt e :
  (forall bs, length (integrate dt bs) = length bs) ->
  (0 < dt)%Q ->
  FixedStep.substeps dt (engine w + e) < fuel ->
  let w' := worldStep (host := accumulatorHost fuel integrate) dt e w in
  bodies w'
  = Nat.iter (FixedStep.substeps dt (engine w + e)) (integrate dt) (bodies w)
  /\ (engine w'
      == engine w + e - FixedStep.Qn (FixedStep.substeps dt (engine w + e)) * dt)%Q.
Proof.
  intros HL Hdt F w'.
  assert (S : stepped fuel integrate dt e w
              = FixedStep.advance integrate
                  (FixedStep.substeps dt (engine w + e)%Q) dt
                  {| FixedStep.sim := bodies w;
                     FixedStep.accumulator := (engine w + e)%Q |}).
  { unfold stepped. cbv zeta.
    rewrite (@FixedStepFacts.step_advance _ integrate dt e
               {| FixedStep.sim := bodies w;
                  FixedStep.accumulator := engine w |} fuel Hdt F).
    reflexivity. }
  destruct (@worldStep_stepped Q exact exactAtLeast fuel integrate dt e w)
    as [B E].
  { rewrite S, FixedStepFacts.advance_sim. cbn [FixedStep.sim].
    now apply iter_length. }
  unfold w'. split.
  - rewrite B, S, FixedStepFacts.advance_sim. reflexivity.
  - rewrite E, S, FixedStepFacts.advance_accumulator. reflexivity.
Qed.

(** C2, as it holds.  In exact arithmetic, with [fixedDt] = 1/60 and elapsed
    times [a] and [b] that are not negative, [world.step(fixedDt, a)]
    followed by [world.step(fixedDt, b)] leaves the bodies and the
    accumulator that the one call [world.step(fixedDt, a + b)] leaves: the
    bodies integrated [k] times by [fixedDt], where [k] is the integer part
    of (accumulator + a + b) / [fixedDt], of which the first call makes the
    integer part of (accumulator + a) / [fixedDt]; and the accumulator
    lowered by [k] times [fixedDt].  This is so when one call may make that
    many substeps. *)
Theorem chunking_in_exact_arithmetic (fuel : nat)
    (integrate : Q -> list (Body Q) -> list (Body Q)) (w : World Q Q)
    (a b : Q) :
  let stepBy := worldStep (host := accumulatorHost fuel integrate) timeStep in
  let k := FixedStep.substeps timeStep (engine w + (a + b)) in
  let k1 := FixedStep.substeps timeStep (engine w + a) in
  (forall dt bs, length (integrate dt bs) = length bs) ->
  (0 <= a)%Q -> (0 <= b)%Q -> k < fuel ->
  bodies (stepBy (a + b)%Q w) = Nat.iter k (integrate timeStep) (bodies w)
  /\ (engine (stepBy (a + b)%Q w)
      == engine w + (a + b) - FixedStep.Qn k * timeStep)%Q
  /\ bodies (stepBy a w) = Nat.iter k1 (integrate timeStep) (bodies w)
  /\ k1 <= k
  /\ bodies (stepBy b (stepBy a w)) = bodies (stepBy (a + b)%Q w)
  /\ (engine (stepBy b (stepBy a w)) == engine (stepBy (a + b)%Q w))%Q.
Proof.
  intros stepBy k k1 HL Ha Hb F.
  assert (Hdt : (0 < timeStep)%Q) by reflexivity.
  pose proof (FixedStepFacts.makes_substeps (engine w + (a + b)) Hdt) as M.
  pose proof (FixedStepFacts.makes_substeps (engine w + a) Hdt) as M1.
  fold k in M. fold k1 in M1.
  assert (L1 : k1 <= k).
  { apply (@FixedStepFacts.makes_le timeStep (engine w + (a + b))%Q
             (engine w + a)%Q k k1 Hdt); [lra|exact M|exact M1]. }
  destruct (@worldStep_substeps fuel integrate w timeStep (a + b)%Q
              (HL timeStep) Hdt F) as [Bab Eab].
  fold k in Bab, Eab.
  assert (F1 : k1 < fuel) by lia.
  destruct (@worldStep_substeps fuel integrate w timeStep a
              (HL timeStep) Hdt F1) as [Ba Ea].
  fold k1 in Ba, Ea.
  set (w1 := worldStep (host := accumulatorHost fuel integrate) timeStep a w)
    in *.
  change (@engine Q (@Engine Q (accumulatorHost fuel integrate)) w1)
    with (@engine Q Q w1) in Ea.
  set (k2 := FixedStep.substeps timeStep (@engine Q Q w1 + b)%Q).
  pose proof (FixedStepFacts.makes_substeps (@engine Q Q w1 + b) Hdt) as M2.
  fold k2 in M2.
  pose proof (@FixedStepFacts.makes_split timeStep (engine w + a)%Q
                (engine w1) b k1 k2 Hdt Hb Ea M1 M2) as M3.
  assert (K : k = k1 + k2).
  { apply (@FixedStepFacts.makes_unique timeStep (engine w + (a + b))%Q
             (engine w + a + b)%Q k (k1 + k2) Hdt); [ring|exact M|exact M3]. }
  assert (F2 : k2 < fuel) by lia.
  destruct (@worldStep_substeps fuel integrate w1 timeStep b
              (HL timeStep) Hdt F2) as [Bb Eb].
  fold k2 in Bb, Eb.
  unfold stepBy. fold w1.
  split; [exact Bab|]. split; [exact Eab|]. split; [exact Ba|].
  split; [exact L1|]. split.
  - rewrite Bb, Bab, K, Nat.add_comm, Nat.iter_add. f_equal. exact Ba.
  - rewrite Eb, Eab, K, FixedStepFacts.Qn_add. lra.
Qed.

(** C2, counterexample.  In doubles 0.3 + 0.3 is 0.6, and with [fixedDt] =
    1/60 the calls [step(fixedDt, 0.3)], [step(fixedDt, 0.3)] make 18 and 18
    substeps while the one call [step(fixedDt, 0.6)] makes 35.  The player's
    sphere, falling freely from the height 5, is then at the height
    1.3000000000000043 after the two calls and 1.5000000000000042 after the
    one. *)
Lemma chunking_shows_in_doubles :
  let stepBy :=
    worldStep (host := accumulatorHost 100 freeFall)
      (timeStep (T := binary64)) in
  let count e n acc :=
    FixedStep.step (counting (T := binary64)) 100 timeStep e
      {| FixedStep.sim := n; FixedStep.accumulator := acc |} in
  let r1 := S754_finite false 7881299347898368 (-107) in
  (dec 3 10 + dec 3 10 : binary64)%js = dec 6 10
  /\ count (dec 3 10) 0 (ofZ 0)
     = Some {| FixedStep.sim := 18; FixedStep.accumulator := r1 |}
  /\ count (dec 3 10) 18 r1
     = Some {| FixedStep.sim := 36;
               FixedStep.accumulator :=
                 S754_finite false 8444249301319680 (-106) |}
  /\ count (dec 6 10) 0 (ofZ 0)
     = Some {| FixedStep.sim := 35;
               FixedStep.accumulator :=
                 S754_finite false 4803839602528479 (-58) |}
  /\ map (@position _) (bodies (stepBy (dec 3 10) (stepBy (dec 3 10) smallWorld)))
     = [ V3 (ofZ 0) (S754_finite false 5854679515581664 (-52)) (ofZ 0);
         V3 (ofZ 0) (ofZ 0) (ofZ 0) ]
  /\ map (@position _) (bodies (stepBy (dec 6 10) smallWorld))
     = [ V3 (ofZ 0) (S754_finite false 6755399441055763 (-52)) (ofZ 0);
         V3 (ofZ 0) (ofZ 0) (ofZ 0) ]
  /\ bodies (stepBy (dec 3 10) (stepBy (dec 3 10) smallWorld))
     <> bodies (stepBy (dec 3 10 + dec 3 10)%js smallWorld).
Proof.
  cbv zeta.
  split; [vm_compute; reflexivity|]. split; [vm_compute; reflexivity|].
  split; [vm_compute; reflexivity|]. split; [vm_compute; reflexivity|].
  split; [vm_compute; reflexivity|]. split; [vm_compute; reflexivity|].
  intros H. apply (f_equal (map (@position _))) in H.
  vm_compute in H. discriminate.
Qed.

(** ** The properties at work *)

Lemma demoLocked_reachable : reachable centred 0%Q demoLocked.
Proof.
  eapply reach_event with (e := Input (lookAlongZ : @View Q driftHost)).
  - eapply reach_event with (e := Lock); [apply reach_start|reflexivity].
  - reflexivity.
Defined.

Lemma frozen_while_disabled_witness :
  enabled (controls demoStart) = false
  /\ exists s',
       run (map Frame [16%Q; 33%Q]) demoStart = Ok s'
       /\ stepCalls s' = stepCalls demoStart
       /\ world s' = world demoStart
       /\ enabled (controls s') = false.
Proof.
  split; [reflexivity|].
  apply (frozen_while_disabled demoStart [16%Q; 33%Q]). reflexivity.
Defined.

Lemma click_ignored_while_disabled_witness :
  enabled (controls demoStart) = false
  /\ click demoClick demoStart = Ok demoStart.
Proof.
  split; [reflexivity|].
  apply (click_ignored_while_disabled demoClick demoStart). reflexivity.
Defined.

Lemma pause_is_not_caught_up_witness :
  exists s',
    run (map Frame ([16%Q; 33%Q] ++ [5000%Q]) ++ [Lock; Frame 5016%Q])
      demoStart = Ok s'
    /\ stepCalls s'
       = stepCalls demoStart
         ++ [(timeStep, (5016%Q / ofZ 1000 - 5000%Q / ofZ 1000)%js)].
Proof.
  apply (proj2 (@pause_is_not_caught_up Q exact driftHost centred 0%Q
                  demoStart [16%Q; 33%Q] 5000%Q 5016%Q
                  (@reach_start _ _ _ _ _) eq_refl)).
Defined.

Lemma proxies_mirror_bodies_witness :
  Parallel demoLocked
  /\ exists s',
       animate (T := Q) 16%Q demoLocked = Ok s'
       /\ Mirrors (bodies (world s')) (boxes s') (boxMeshes s').
Proof.
  destruct (proxies_mirror_bodies demoLocked_reachable) as (P & _ & F & _).
  split; [exact P|].
  destruct (F 16%Q) as (s' & E & M & _).
  exists s'. split; [exact E|]. apply M. reflexivity.
Defined.


Lemma ball_velocity_follows_view_witness :
  exists s' ball,
    click demoClick demoLocked = Ok s'
    /\ nth_error (bodies (world s')) 112 = Some ball
    /\ veq (velocity ball) (V3 0 0 15)%Q.
Proof.
  destruct (ball_velocity_follows_view demoClick demoLocked_reachable eq_refl)
    as (s' & d & player & ball & E & _ & _ & D & B & _ & _ & _ & H).
  exists s', ball. split; [exact E|].
  split; [rewrite B; reflexivity|].
  vm_compute in D. injection D as <-.
  apply H. repeat split; reflexivity.
Defined.

Lemma chunking_in_exact_arithmetic_witness :
  let stepBy :=
    worldStep (host := accumulatorHost 100 freeFall) (timeStep (T := Q)) in
  bodies (stepBy (1 # 20)%Q (stepBy (1 # 10)%Q smallWorld))
  = bodies (stepBy ((1 # 10) + (1 # 20))%Q smallWorld).
Proof.
  destruct (@chunking_in_exact_arithmetic 100 freeFall smallWorld
              (1 # 10)%Q (1 # 20)%Q) as (_ & _ & _ & _ & B & _).
  - intros dt bs. apply length_map.
  - discriminate.
  - discriminate.
  - vm_compute. lia.
  - exact B.
Defined.

(** * Further properties of the program *)

Section MoreProgramFacts.
Context {T : Type} {num : Number T} {host : Host T}.
Local Open Scope js_scope.

(** ** No handler fails *)

Lemma run_total es (s : State) : Inv s -> exists s', run es s = Ok s'.
Proof.
  revert s; induction es as [|e es IH]; intros s I; simpl; eauto.
  destruct (handle_total e I) as [s1 E]. rewrite E. simpl.
  apply IH. eapply handle_Inv; eauto.
Qed.

(** X1.  Whatever the frames, clicks, lock changes and inputs that follow
    the setup, every handler runs to its end: no frame ever reads a mesh
    that is not there. *)
Theorem no_event_fails random now0 (es : list Event) :
  exists s' : State, run es (start random now0) = Ok s'.
Proof. apply run_total, Inv_start. Qed.

(** ** Synchronisation, on its own *)

Lemma syncFrom_le (bs : list (Body T)) refs :
  validRefs bs refs ->
  forall n i meshes,
    (i + n = length refs)%nat -> length refs <= length meshes ->
    exists ms,
      syncFrom bs refs i n meshes = Ok ms
      /\ length ms = length meshes
      /\ (forall j, j < i \/ length refs <= j ->
            nth_error ms j = nth_error meshes j)
      /\ (forall j r, i <= j -> nth_error refs j = Some r ->
            exists b m, nth_error bs r = Some b
              /\ nth_error meshes j = Some m
              /\ nth_error ms j = Some (copyPose b m)).
Proof.
  intros Hv. induction n as [|n IH]; intros i meshes Hi Hl.
  - exists meshes. simpl. repeat split; auto.
    intros j r Hj Hr.
    assert (j < length refs) by (apply nth_error_Some; congruence). lia.
  - assert (Hi' : i < length refs) by lia.
    destruct (nth_error meshes i) as [m|] eqn:Em.
    2:{ apply nth_error_None in Em. lia. }
    destruct (nth_error refs i) as [r|] eqn:Er.
    2:{ apply nth_error_None in Er. lia. }
    assert (Hr : r < length bs).
    { unfold validRefs in Hv. rewrite Forall_forall in Hv.
      apply Hv. eapply nth_error_In; eauto. }
    destruct (nth_error bs r) as [b|] eqn:Eb.
    2:{ apply nth_error_None in Eb. lia. }
    destruct (IH (S i) (alter (copyPose b) i meshes)) as (ms & E & L & P & Q).
    { lia. } { now rewrite alter_length. }
    exists ms. simpl. unfold syncMesh. rewrite Em, Er. simpl. rewrite Eb. simpl.
    rewrite alter_length in L.
    split; [exact E|]. split; [exact L|]. split.
    + intros j Hj. rewrite P by lia. apply nth_error_alter_ne. lia.
    + intros j r' Hj Hr'. destruct (Nat.eq_dec i j) as [<-|Hne].
      * rewrite Er in Hr'. injection Hr' as <-.
        exists b, m. repeat split; auto.
        rewrite P by lia. now apply nth_error_alter_eq.
      * destruct (Q j r') as (b' & m' & B1 & B2 & B3); auto; try lia.
        exists b', m'. repeat split; auto.
        now rewrite nth_error_alter_ne in B2 by lia.
Qed.

Lemma syncFrom_short (bs : list (Body T)) refs :
  validRefs bs refs ->
  forall n i meshes,
    i <= length meshes -> length meshes < i + n -> (i + n = length refs)%nat ->
    syncFrom bs refs i n meshes = Err TypeError.
Proof.
  intros Hv. induction n as [|n IH]; intros i meshes H1 H2 H3; [lia|].
  simpl. unfold syncMesh.
  destruct (nth_error meshes i) as [m|] eqn:Em; [|reflexivity].
  assert (i < length meshes) by (apply nth_error_Some; congruence).
  destruct (nth_error refs i) as [r|] eqn:Er.
  2:{ apply nth_error_None in Er. lia. }
  assert (Hr : r < length bs).
  { unfold validRefs in Hv. rewrite Forall_forall in Hv.
    apply Hv. eapply nth_error_In; eauto. }
  destruct (nth_error bs r) as [b|] eqn:Eb.
  2:{ apply nth_error_None in Eb. lia. }
  simpl. rewrite Eb. simpl. apply IH; rewrite ?alter_length; lia.
Qed.

(** X2.  The loops of [animate] need a mesh for every body: given fewer
    meshes than bodies, a loop fails with a TypeError, at the first body
    that has none. *)
Theorem sync_fails_without_mesh (bs : list (Body T)) refs meshes :
  validRefs bs refs ->
  length meshes < length refs ->
  syncMeshes bs refs meshes = Err TypeError.
Proof.
  intros Hv Hl. apply syncFrom_short; auto; lia.
Qed.

(** X3.  Given at least as many meshes as bodies, a loop of [animate]
    succeeds; it gives mesh [i] the pose of body [refs[i]] for every [i]
    below [refs.length], keeps the number of meshes, and leaves the meshes
    from [refs.length] on as they were. *)
Theorem sync_leaves_surplus_meshes (bs : list (Body T)) refs meshes :
  validRefs bs refs ->
  length refs <= length meshes ->
  exists ms,
    syncMeshes bs refs meshes = Ok ms
    /\ length ms = length meshes
    /\ Mirrors bs refs ms
    /\ skipn (length refs) ms = skipn (length refs) meshes.
Proof.
  intros Hv Hl.
  destruct (syncFrom_le Hv (length refs) 0 meshes) as (ms & E & L & P & Q);
    auto.
  exists ms. split; [exact E|]. split; [exact L|]. split.
  - intros i r Hr. destruct (Q i r) as (b & m & B1 & B2 & B3); auto; try lia.
    exists b, (copyPose b m). repeat split; auto.
  - apply nth_error_ext. intros j. rewrite !nth_error_skipn.
    apply P. right. lia.
Qed.

(** X4.  Synchronising twice is synchronising once: a second pass over the
    same bodies changes no mesh. *)
Theorem sync_twice (bs : list (Body T)) refs meshes ms :
  validRefs bs refs ->
  syncMeshes bs refs meshes = Ok ms ->
  syncMeshes bs refs ms = Ok ms.
Proof.
  intros Hv E.
  assert (Hl : length refs <= length meshes).
  { destruct (Nat.le_gt_cases (length refs) (length meshes)) as [H|H]; auto.
    unfold syncMeshes in E. rewrite syncFrom_short in E; auto; try lia.
    discriminate. }
  destruct (syncFrom_le Hv (length refs) 0 meshes) as (ms1 & E1 & L1 & P1 & Q1);
    auto.
  unfold syncMeshes in E. rewrite E in E1. injection E1 as <-.
  destruct (syncFrom_le Hv (length refs) 0 ms) as (ms2 & E2 & L2 & P2 & Q2);
    auto; try lia.
  unfold syncMeshes. rewrite E2. f_equal.
  apply nth_error_ext. intros j.
  destruct (Nat.lt_ge_cases j (length refs)) as [Hj|Hj].
  - destruct (nth_error refs j) as [r|] eqn:Er.
    2:{ apply nth_error_None in Er. lia. }
    destruct (Q1 j r) as (b & m & B1 & B2 & B3); auto; try lia.
    destruct (Q2 j r) as (b' & m' & C1 & C2 & C3); auto; try lia.
    rewrite C3, B3. rewrite B1 in C1. injection C1 as <-.
    rewrite B3 in C2. injection C2 as <-. reflexivity.
  - apply P2. now right.
Qed.


(** ** The calls of [world.step] *)

Lemma handle_log e (s s' : State) :
  Inv s -> handle e s = Ok s' ->
  stepCalls s'
  = stepCalls s ++ expectedCalls (enabled (controls s)) (lastCallTime s) [e]
  /\ enabled (controls s')
     = match e with
       | Lock => true
       | Unlock => false
       | _ => enabled (controls s)
       end
  /\ lastCallTime s'
     = match e with
       | Frame now => now / ofZ 1000
       | _ => lastCallTime s
       end.
Proof.
  intros I H. destruct e as [now|ev| | |v]; simpl in H |- *.
  - destruct (enabled (controls s)) eqn:En.
    + destruct (animate_enabled now I En)
        as (t & E & _ & _ & _ & _ & _ & _ & _ & Sc & Lc & _ & _ & En').
      rewrite E in H. injection H as <-. auto.
    + rewrite animate_disabled in H by exact En. injection H as <-.
      simpl. rewrite app_nil_r. auto.
  - rewrite app_nil_r. destruct (enabled (controls s)) eqn:En.
    + destruct (Inv_player I) as [pl Ep].
      destruct (click_spawn ev s En Ep) as [_ E]. rewrite E in H.
      injection H as <-. simpl. auto.
    + rewrite click_disabled in H by exact En. injection H as <-. auto.
  - injection H as <-. simpl. rewrite app_nil_r. auto.
  - injection H as <-. simpl. rewrite app_nil_r. auto.
  - injection H as <-. simpl. rewrite app_nil_r. auto.
Qed.

Lemma expectedCalls_cons on last e es :
  expectedCalls on last (e :: es)
  = expectedCalls on last [e]
    ++ expectedCalls
         (match e with Lock => true | Unlock => false | _ => on end)
         (match e with Frame now => now / ofZ 1000 | _ => last end) es.
Proof. destruct e; simpl; rewrite ?app_nil_r; reflexivity. Qed.

Lemma run_log es (s : State) :
  Inv s ->
  exists s',
    run es s = Ok s'
    /\ stepCalls s'
       = stepCalls s
         ++ expectedCalls (enabled (controls s)) (lastCallTime s) es.
Proof.
  revert s; induction es as [|e es IH]; intros s I.
  - exists s. simpl. now rewrite app_nil_r.
  - destruct (handle_total e I) as [s1 E].
    destruct (handle_log e I E) as (L1 & L2 & L3).
    destruct (IH s1) as (s' & R & L); [eapply handle_Inv; eauto|].
    exists s'. cbn [run]. rewrite E. cbn [bind]. split; [exact R|].
    rewrite L, L1, L2, L3, <- app_assoc. f_equal.
    symmetry. apply expectedCalls_cons.
Qed.

(** X5.  The calls of [world.step] can be read off the events: a frame of
    the enabled program makes one call, with [timeStep] and the time since
    the frame before it, enabled or not; a frame of the disabled program and
    every other event make none. *)
Theorem step_calls_follow_events random now0 (es : list Event) :
  exists s' : State,
    run es (start random now0) = Ok s'
    /\ stepCalls s' = expectedCalls false now0 es.
Proof.
  destruct (run_log es (Inv_start random now0)) as (s' & R & L).
  destruct (start_shape random now0) as (_ & _ & _ & _ & _ & _ & _ & A & B & C).
  cbv zeta in *. rewrite A, B, C in L.
  exists s'. split; [exact R|]. exact L.
Qed.

(** X6.  Line 16 reads [lastCallTime] in milliseconds and line 381 the time
    in seconds, but the first frame runs before any lock and only stores its
    time: once a frame has run, no call of [world.step] depends on the value
    line 16 read. *)
Theorem first_reading_never_reaches_step random now0 now0' t0
    (es : list Event) :
  exists s s' : State,
    run (Frame t0 :: es) (start random now0) = Ok s
    /\ run (Frame t0 :: es) (start random now0') = Ok s'
    /\ stepCalls s = stepCalls s'.
Proof.
  destruct (run_log (Frame t0 :: es) (Inv_start random now0)) as (s & R & L).
  destruct (run_log (Frame t0 :: es) (Inv_start random now0'))
    as (s' & R' & L').
  exists s, s'. split; [exact R|]. split; [exact R'|].
  destruct (start_shape random now0) as (_ & _ & _ & _ & _ & _ & _ & A & B & C).
  destruct (start_shape random now0')
    as (_ & _ & _ & _ & _ & _ & _ & A' & B' & C').
  cbv zeta in *. rewrite L, L', A, B, C, A', B', C'. reflexivity.
Qed.

(** ** Clicks *)

(** X7.  A click on the enabled program appends one body, of mass 1, with
    the ball shape, unrotated, and one mesh, which casts and receives
    shadows and starts at the ball's position.  It changes no body and no
    mesh that was there, no constraint, and neither the clock, the
    controller nor the calls of [world.step]. *)
Theorem click_adds_one_ball random now0 (s : State) (ev : MouseEvent) :
  reachable random now0 s ->
  enabled (controls s) = true ->
  exists s' ball mesh,
    click ev s = Ok s'
    /\ bodies (world s') = bodies (world s) ++ [ball]
    /\ ballMeshes s' = ballMeshes s ++ [mesh]
    /\ balls s' = balls s ++ [length (bodies (world s))]
    /\ mass ball = ofZ 1
    /\ shapes ball = [ShSphere (Sphere (dec 2 10))]
    /\ quaternion ball = qidentity
    /\ mesh_position mesh = position ball
    /\ castShadow mesh = true /\ receiveShadow mesh = true
    /\ constraints (world s') = constraints (world s)
    /\ boxes s' = boxes s /\ boxMeshes s' = boxMeshes s
    /\ stepCalls s' = stepCalls s
    /\ lastCallTime s' = lastCallTime s
    /\ controls s' = controls s.
Proof.
  intros R En. apply reachable_Inv in R.
  destruct (Inv_player R) as [player Ep].
  destruct (click_spawn ev s En Ep) as [_ Ec].
  eexists _, _, _. split; [exact Ec|]. simpl. repeat split.
Qed.

Lemma clicks_grow ev n :
  forall s : State,
    Inv s -> enabled (controls s) = true ->
    exists s' new,
      run (clicks ev n) s = Ok s'
      /\ bodies (world s') = bodies (world s) ++ new
      /\ length new = n
      /\ Forall (fun b => mass b = ofZ 1) new
      /\ balls s' = balls s ++ seq (length (bodies (world s))) n
      /\ length (ballMeshes s') = (length (ballMeshes s) + n)%nat
      /\ boxes s' = boxes s.
Proof.
  induction n as [|n IH]; intros s I En.
  - exists s, []. simpl. rewrite !app_nil_r, Nat.add_0_r. repeat split; auto.
  - destruct (Inv_player I) as [player Ep].
    destruct (click_spawn ev s En Ep) as [_ Ec].
    match type of Ec with _ = Ok ?t => set (s1 := t) in * end.
    assert (I1 : Inv s1) by (eapply (handle_Inv (Click ev)); eauto).
    destruct (IH s1 I1 En) as (s' & new & R & B & L & F & Ba & Bm & Bx).
    exists s'. eexists (_ :: new).
    unfold clicks in *. simpl. rewrite Ec. simpl.
    split; [exact R|]. rewrite B, Ba, Bm, Bx. simpl.
    rewrite <- !app_assoc, !length_app. simpl.
    split; [reflexivity|]. split; [now rewrite L|].
    split; [constructor; [reflexivity|exact F]|].
    split; [now rewrite Nat.add_1_r|]. split; [lia|reflexivity].
Qed.

(** X8.  Balls are never taken away.  [n] clicks in a row on the enabled
    program all succeed and leave [n] more bodies in the world, each of mass
    1, after the bodies that were there, with [n] more entries in [balls]
    and in [ballMeshes]; the boxes are as before. *)
Theorem clicks_pile_up random now0 (s : State) (ev : MouseEvent) (n : nat) :
  reachable random now0 s ->
  enabled (controls s) = true ->
  exists s' new,
    run (clicks ev n) s = Ok s'
    /\ bodies (world s') = bodies (world s) ++ new
    /\ length new = n
    /\ Forall (fun b => mass b = ofZ 1) new
    /\ balls s' = balls s ++ seq (length (bodies (world s))) n
    /\ length (ballMeshes s') = (length (ballMeshes s) + n)%nat
    /\ boxes s' = boxes s.
Proof.
  intros R En. apply clicks_grow; [now apply reachable_Inv in R|exact En].
Qed.

(** ** Pausing *)

Lemma quiet_event e (s s' : State) :
  enabled (controls s) = false -> isLock e = false ->
  handle e s = Ok s' ->
  world s' = world s
  /\ balls s' = balls s /\ ballMeshes s' = ballMeshes s
  /\ boxes s' = boxes s /\ boxMeshes s' = boxMeshes s
  /\ stepCalls s' = stepCalls s
  /\ enabled (controls s') = false.
Proof.
  intros En Q H. destruct e as [now|ev| | |v]; simpl in H; try discriminate.
  - rewrite animate_disabled in H by exact En. injection H as <-.
    repeat split; assumption.
  - rewrite click_disabled in H by exact En. injection H as <-.
    repeat split; assumption.
  - injection H as <-. repeat split.
  - injection H as <-. repeat split; assumption.
Qed.

Lemma quiet_run es :
  forall s s' : State,
    enabled (controls s) = false ->
    forallb (fun e => negb (isLock e)) es = true ->
    run es s = Ok s' ->
    world s' = world s
    /\ balls s' = balls s /\ ballMeshes s' = ballMeshes s
    /\ boxes s' = boxes s /\ boxMeshes s' = boxMeshes s
    /\ stepCalls s' = stepCalls s.
Proof.
  induction es as [|e es IH]; intros s s' En Q H; simpl in *.
  - injection H as <-. repeat split.
  - apply andb_true_iff in Q as [Q1 Q2]. apply negb_true_iff in Q1.
    apply bind_Ok in H as (s1 & H1 & H2).
    destruct (@quiet_event e s s1 En Q1 H1) as (A & B & C & D & E & F & G).
    destruct (IH s1 s' G Q2 H2) as (A' & B' & C' & D' & E' & F').
    repeat split; congruence.
Qed.

(** X9.  What an enabled frame has drawn stays true through a pause: after
    the frame, an unlock, and then any events but a lock (frames, clicks,
    inputs), the world is as the frame left it and every mesh still carries
    the pose of its body. *)
Theorem picture_kept_while_paused random now0 (s : State) now
    (es : list Event) :
  reachable random now0 s ->
  enabled (controls s) = true ->
  forallb (fun e => negb (isLock e)) es = true ->
  exists s1 s2,
    animate now s = Ok s1
    /\ run (Unlock :: es) s1 = Ok s2
    /\ world s2 = world s1
    /\ Mirrors (bodies (world s2)) (balls s2) (ballMeshes s2)
    /\ Mirrors (bodies (world s2)) (boxes s2) (boxMeshes s2).
Proof.
  intros R En Q. apply reachable_Inv in R.
  destruct (animate_enabled now R En) as (s1 & E & M1 & M2 & _).
  assert (I1 : Inv s1) by (eapply (handle_Inv (Frame now)); eauto).
  assert (I2 : Inv (onUnlock s1)) by (destruct I1; constructor; auto).
  destruct (run_total es I2) as [s2 R2].
  destruct (@quiet_run es (onUnlock s1) s2 eq_refl Q R2)
    as (A & B & C & D & E1 & _).
  exists s1, s2. split; [exact E|]. simpl. split; [exact R2|].
  simpl in *. rewrite A, B, C, D, E1. auto.
Qed.

(** ** The boxes *)

Lemma start_bodies random now0 :
  let s : State := start random now0 in
  skipn 2 (bodies (world s))
  = map (randomBox random) (seq 0 100) ++ map linkBody (seq 0 linkN)
  /\ map (@mesh_position T) (firstn 100 (boxMeshes s))
     = map (boxPosition random) (seq 0 100)
  /\ boxes s = seq 2 110.
Proof. repeat split; reflexivity. Qed.

End MoreProgramFacts.

(** ** The boxes, in exact arithmetic *)

Lemma boxPosition_bounds (random : nat -> Q) (i : nat) :
  (forall k, 0 <= random k < 1)%Q ->
  (- (51) <= x (boxPosition random i) < 51
   /\ 1 <= y (boxPosition random i) < 11
   /\ - (51) <= z (boxPosition random i) < 51)%Q.
Proof.
  intros H. unfold boxPosition. cbn [x y z].
  pose proof (H (5 * i)) as H0. pose proof (H (5 * i + 1)) as H1.
  pose proof (H (5 * i + 2)) as H2. pose proof (H (5 * i + 3)) as H3.
  pose proof (H (5 * i + 4)) as H4.
  change (@add Q exact) with Qplus. change (@sub Q exact) with Qminus.
  change (@mul Q exact) with Qmult.
  change (@dec Q exact 5 10) with (5 # 10)%Q.
  change (@ofZ Q exact 100) with 100%Q. change (@ofZ Q exact 10) with 10%Q.
  change (@ofZ Q exact 2) with 2%Q. change (@ofZ Q exact 1) with 1%Q.
  repeat split; lra.
Qed.

(** X10.  Whatever [Math.random()] returns in [0,1), each of the hundred
    boxes of the first loop starts within 51 of the origin in x and in z and
    at a height from 1 up to 11, above the ground plane; it has mass 5, and
    its mesh starts at the same position. *)
Theorem boxes_start_in_range (host : Host Q) (random : nat -> Q) now0
    (i : nat) :
  (forall k, 0 <= random k < 1)%Q ->
  i < 100 ->
  exists b m,
    nth_error (boxes (start random now0)) i = Some (2 + i)
    /\ nth_error (bodies (world (start random now0))) (2 + i) = Some b
    /\ nth_error (boxMeshes (start random now0)) i = Some m
    /\ mesh_position m = position b
    /\ mass b = 5%Q
    /\ (- (51) <= x (position b) < 51)%Q
    /\ (1 <= y (position b) < 11)%Q
    /\ (- (51) <= z (position b) < 51)%Q.
Proof.
  intros Hr Hi.
  destruct (start_bodies (host := host) random now0) as (B & M & X).
  cbv zeta in *.
  exists (randomBox random i).
  assert (Eb : nth_error (bodies (world (start random now0))) (2 + i)
               = Some (randomBox random i)).
  { rewrite <- nth_error_skipn, B.
    rewrite nth_error_app1 by (rewrite length_map, length_seq; exact Hi).
    rewrite nth_error_map, nth_error_seq.
    destruct (Nat.ltb_spec i 100); [reflexivity|lia]. }
  assert (Em : option_map (@mesh_position Q)
                 (nth_error (boxMeshes (start random now0)) i)
               = Some (boxPosition random i)).
  { apply (f_equal (fun l => nth_error l i)) in M.
    rewrite !nth_error_map, nth_error_firstn, nth_error_seq in M.
    destruct (Nat.ltb_spec i 100); [exact M|lia]. }
  destruct (nth_error (boxMeshes (start random now0)) i) as [m|];
    [|discriminate].
  injection Em as Em. exists m.
  split.
  { rewrite X, nth_error_seq. destruct (Nat.ltb_spec i 110); [reflexivity|lia]. }
  split; [exact Eb|]. split; [reflexivity|]. split; [exact Em|].
  split; [reflexivity|].
  apply (boxPosition_bounds random i Hr).
Qed.

(** X14.  Setup copies the position of a box to its mesh but not that of a
    chain link: when the program starts, the ten meshes of the chain are at
    the origin while their links hang at (5, ..., 0), so the proxies do not
    mirror the bodies until the first frame of the enabled program. *)
Theorem chain_meshes_start_at_origin :
  (forall T (num : Number T) (host : Host T) random now0,
      let s : State := start random now0 in
      skipn 100 (boxes s) = seq 102 linkN
      /\ map (@mesh_position T) (skipn 100 (boxMeshes s)) = repeat vzero linkN
      /\ map (@position T) (skipn 102 (bodies (world s)))
         = map (fun i => V3 (ofZ 5) (linkY i) (ofZ 0)) (seq 0 linkN))
  /\ (forall (host : Host Q) random now0,
         let s : State := start random now0 in
         ~ Mirrors (bodies (world s)) (boxes s) (boxMeshes s)).
Proof.
  split.
  - intros T num host random now0 s. repeat split; reflexivity.
  - intros host random now0 s M.
    assert (E : nth_error (boxes s) 100 = Some 102) by reflexivity.
    destruct (M 100 102 E) as (b & m & Hb & Hm & Hp & _).
    assert (Eb : nth_error (bodies (world s)) 102 = Some (linkBody 0))
      by reflexivity.
    assert (Em : option_map (@mesh_position Q) (nth_error (boxMeshes s) 100)
                 = Some vzero) by reflexivity.
    rewrite Hb in Eb. injection Eb as ->.
    rewrite Hm in Em. injection Em as Em.
    rewrite Em in Hp. vm_compute in Hp. discriminate.
Qed.

(** ** The sun, in exact arithmetic *)

Section SunFacts.
Variable PI : Q.
Variable sin : Q -> Q.
Variable degToRad : Q -> Q.
Variable setFromSphericalCoords : Q -> Q -> Q -> Vec3 Q.
Hypothesis PI_positive : (0 < PI)%Q.
Local Open Scope Q_scope.

Local Notation "'update'" :=
  (updateSunPosition PI sin degToRad setFromSphericalCoords).
Local Notation "'frame'" :=
  (sunAnimate PI sin degToRad setFromSphericalCoords).
Local Notation "'frames'" :=
  (sunFrames PI sin degToRad setFromSphericalCoords).

Lemma update_theta speed deltaTime (s : Sun) :
  theta (update speed deltaTime s)
  = if Qle_bool (theta s + speed * deltaTime) (2 * PI)
    then theta s + speed * deltaTime
    else theta s + speed * deltaTime - 2 * PI.
Proof.
  unfold updateSunPosition. cbn [theta].
  change (@gt Q exactOrder) with (fun a b => negb (Qle_bool a b)).
  cbv beta.
  change (@add Q exact) with Qplus. change (@sub Q exact) with Qminus.
  change (@mul Q exact) with Qmult. change (@ofZ Q exact 2) with 2.
  now destruct (Qle_bool _ _).
Qed.

Lemma frame_theta speed time (s : Sun) :
  theta (frame speed time s)
  = theta (update speed ((time - lastTime s) / 1000) s).
Proof. reflexivity. Qed.

Lemma frame_lastTime speed time (s : Sun) :
  lastTime (frame speed time s) = time.
Proof. reflexivity. Qed.

Lemma ascending_end t0 ts tn : ascending t0 (ts ++ [tn]) -> t0 <= tn.
Proof.
  revert t0; induction ts as [|t ts IH]; intros t0 H; simpl in H.
  - tauto.
  - destruct H as [H1 H2]. apply Qle_trans with t; auto.
Qed.

Lemma advance_le speed a b l :
  0 <= speed -> a <= b ->
  speed * ((a - l) / 1000) <= speed * ((b - l) / 1000).
Proof.
  intros Hs Hab. rewrite !(Qmult_comm speed).
  apply Qmult_le_compat_r; [|exact Hs].
  unfold Qdiv. apply Qmult_le_compat_r; [lra|discriminate].
Qed.

(** X11.  A frame keeps the sun's angle between 0 and 2 pi as long as it
    advances the angle by no more than a full turn. *)
Theorem sun_angle_stays_in_range speed time (s : Sun) :
  0 <= theta s <= 2 * PI ->
  0 <= speed * ((time - lastTime s) / 1000) <= 2 * PI ->
  0 <= theta (frame speed time s) <= 2 * PI.
Proof.
  intros Ht Ha. rewrite frame_theta, update_theta.
  destruct (Qle_bool _ _) eqn:E.
  - apply Qle_bool_iff in E. lra.
  - assert (~ theta s + speed * ((time - lastTime s) / 1000) <= 2 * PI).
    { intros C. apply Qle_bool_iff in C. congruence. }
    lra.
Qed.

(** X12.  The wrap of line 96 takes one turn off, not the remainder: a
    frame that carries the angle beyond 4 pi, after a long stall, leaves it
    above 2 pi. *)
Theorem sun_angle_wraps_once speed time (s : Sun) :
  4 * PI < theta s + speed * ((time - lastTime s) / 1000) ->
  2 * PI < theta (frame speed time s)
  /\ theta (frame speed time s)
     == theta s + speed * ((time - lastTime s) / 1000) - 2 * PI.
Proof.
  intros H. rewrite frame_theta, update_theta.
  destruct (Qle_bool _ _) eqn:E.
  - apply Qle_bool_iff in E. lra.
  - split; [lra|reflexivity].
Qed.

Lemma frames_no_wrap speed ts :
  0 <= speed ->
  forall tn (s : Sun),
    ascending (lastTime s) (ts ++ [tn]) ->
    0 <= theta s ->
    theta s + speed * ((tn - lastTime s) / 1000) <= 2 * PI ->
    theta (frames speed (ts ++ [tn]) s)
    == theta s + speed * ((tn - lastTime s) / 1000)
    /\ lastTime (frames speed (ts ++ [tn]) s) = tn.
Proof.
  intros Hs. induction ts as [|t ts IH]; intros tn s A H0 H.
  - unfold sunFrames. cbn [app fold_left].
    rewrite frame_theta, update_theta, frame_lastTime.
    apply Qle_bool_iff in H. rewrite H. split; reflexivity.
  - cbn [app] in A. destruct A as [A1 A2].
    pose proof (@ascending_end _ _ _ A2) as A3.
    pose proof (@advance_le speed _ _ (lastTime s) Hs A3) as M.
    assert (M0 : 0 <= speed * ((t - lastTime s) / 1000)).
    { apply Qmult_le_0_compat; [exact Hs|].
      unfold Qdiv. apply Qmult_le_0_compat; [lra|discriminate]. }
    assert (E : theta (frame speed t s)
                = theta s + speed * ((t - lastTime s) / 1000)).
    { rewrite frame_theta, update_theta.
      assert (L : theta s + speed * ((t - lastTime s) / 1000) <= 2 * PI)
        by lra.
      apply Qle_bool_iff in L. now rewrite L. }
    unfold sunFrames in *. cbn [app fold_left].
    destruct (IH tn (frame speed t s)) as [I1 I2].
    + rewrite frame_lastTime. exact A2.
    + rewrite E. lra.
    + rewrite E, frame_lastTime.
      setoid_replace (speed * ((tn - t) / 1000))
        with (speed * ((tn - lastTime s) / 1000)
              - speed * ((t - lastTime s) / 1000)) by field.
      lra.
    + split; [|exact I2]. rewrite I1, E, frame_lastTime. field.
Qed.

Lemma frames_any_rate speed ts tn (s : Sun) :
  0 <= speed ->
  ascending (lastTime s) (ts ++ [tn]) ->
  0 <= theta s ->
  theta s + speed * ((tn - lastTime s) / 1000) <= 2 * PI ->
  theta (frames speed (ts ++ [tn]) s)
  == theta (frame speed tn s)
  /\ theta (frames speed (ts ++ [tn]) s)
     == theta s + speed * ((tn - lastTime s) / 1000)
  /\ lastTime (frames speed (ts ++ [tn]) s) = tn.
Proof.
  intros Hs A H0 H.
  destruct (@frames_no_wrap speed ts Hs tn s A H0 H) as [E1 E2].
  split; [|split; [exact E1|exact E2]].
  rewrite E1, frame_theta, update_theta.
  apply Qle_bool_iff in H. rewrite H. reflexivity.
Qed.

End SunFacts.

(** X13.  In exact arithmetic the sun's angle does not depend on the frame
    rate: over frames whose times do not go back, with the slider left alone
    and as long as the angle stays within the first turn, the angle has
    advanced by the speed times the seconds from the time stored before the
    first frame to the last frame, however many frames came between.  In
    the doubles of the program this holds up to rounding only: at the speed
    0.05 the frames at 16, 33 and 50 ms leave the angle 0.0025, and the one
    frame at 50 ms leaves 0.0025000000000000005. *)
Theorem sun_angle_is_frame_rate_independent :
  (forall PI sin degToRad setFromSphericalCoords speed ts tn
          (s : Sun (T := Q)),
      (0 <= speed)%Q ->
      ascending (lastTime s) (ts ++ [tn]) ->
      (0 <= theta s)%Q ->
      (theta s + speed * ((tn - lastTime s) / 1000) <= 2 * PI)%Q ->
      (theta (sunFrames PI sin degToRad setFromSphericalCoords speed
                (ts ++ [tn]) s)
       == theta (sunAnimate PI sin degToRad setFromSphericalCoords speed
                   tn s))%Q
      /\ (theta (sunFrames PI sin degToRad setFromSphericalCoords speed
                   (ts ++ [tn]) s)
          == theta s + speed * ((tn - lastTime s) / 1000))%Q
      /\ lastTime (sunFrames PI sin degToRad setFromSphericalCoords speed
                     (ts ++ [tn]) s) = tn)
  /\ theta (sun64Frames (dec 5 100) [ofZ 16; ofZ 33; ofZ 50])
     = S754_finite false 5764607523034235 (-61)
  /\ theta (sun64Frames (dec 5 100) [ofZ 50])
     = S754_finite false 5764607523034236 (-61).
Proof.
  split; [|split; vm_compute; reflexivity].
  intros PI sin degToRad setFromSphericalCoords speed ts tn s.
  apply frames_any_rate.
Qed.


(** ** The further properties at work *)

Ltac decide_Q :=
  repeat split; vm_compute; first [reflexivity | discriminate].

Lemma sync_fails_without_mesh_witness :
  syncMeshes (bodies (world demoStart)) [2; 3] [newMesh (T := Q) 0]
  = Err TypeError.
Proof.
  apply sync_fails_without_mesh.
  - repeat constructor; vm_compute; lia.
  - simpl. lia.
Defined.

Lemma sync_leaves_surplus_meshes_witness :
  exists ms,
    syncMeshes (bodies (world demoStart)) [2] [newMesh (T := Q) 0; newMesh 1]
    = Ok ms
    /\ length ms = 2
    /\ Mirrors (bodies (world demoStart)) [2] ms
    /\ skipn 1 ms = [newMesh 1].
Proof.
  apply (@sync_leaves_surplus_meshes Q (bodies (world demoStart)) [2]
           [newMesh 0; newMesh 1]).
  - repeat constructor; vm_compute; lia.
  - simpl. lia.
Defined.

Lemma sync_twice_witness :
  syncMeshes (bodies (world demoStart)) [2]
    [copyPose (randomBox centred 0) (newMesh (T := Q) 0)]
  = Ok [copyPose (randomBox centred 0) (newMesh 0)].
Proof.
  apply (@sync_twice Q (bodies (world demoStart)) [2] [newMesh 0]).
  - repeat constructor; vm_compute; lia.
  - reflexivity.
Defined.

Lemma click_adds_one_ball_witness :
  exists s' ball mesh,
    click demoClick demoLocked = Ok s'
    /\ bodies (world s') = bodies (world demoLocked) ++ [ball]
    /\ ballMeshes s' = ballMeshes demoLocked ++ [mesh]
    /\ mesh_position mesh = position ball.
Proof.
  destruct (click_adds_one_ball demoClick demoLocked_reachable eq_refl)
    as (s' & ball & mesh & E & B & M & _ & _ & _ & _ & P & _).
  exists s', ball, mesh. repeat split; assumption.
Defined.

Lemma clicks_pile_up_witness :
  exists s' new,
    run (clicks demoClick 3) demoLocked = Ok s'
    /\ bodies (world s') = bodies (world demoLocked) ++ new
    /\ length new = 3.
Proof.
  destruct (clicks_pile_up demoClick 3 demoLocked_reachable eq_refl)
    as (s' & new & R & B & L & _).
  exists s', new. repeat split; assumption.
Defined.

Lemma picture_kept_while_paused_witness :
  exists s1 s2,
    animate (T := Q) 16%Q demoLocked = Ok s1
    /\ run [Unlock; Frame 33%Q; Click demoClick; Frame 50%Q] s1 = Ok s2
    /\ world s2 = world s1
    /\ Mirrors (bodies (world s2)) (boxes s2) (boxMeshes s2).
Proof.
  destruct (@picture_kept_while_paused Q exact driftHost centred 0%Q
              demoLocked 16%Q [Frame 33%Q; Click demoClick; Frame 50%Q]
              demoLocked_reachable eq_refl eq_refl)
    as (s1 & s2 & E & R & W & _ & M).
  exists s1, s2. repeat split; assumption.
Defined.

Lemma boxes_start_in_range_witness :
  exists b,
    nth_error (bodies (world demoStart)) 9 = Some b
    /\ (1 <= y (position b) < 11)%Q.
Proof.
  destruct (@boxes_start_in_range driftHost centred 0%Q 7)
    as (b & m & _ & B & _ & _ & _ & _ & Y & _).
  - intros k. decide_Q.
  - lia.
  - exists b. split; [exact B|exact Y].
Defined.

Lemma sun_angle_stays_in_range_witness :
  (0 <= theta (demoSunFrames (1 # 20) [16; 33])
   <= 2 * (355 # 113))%Q.
Proof.
  apply (@sun_angle_stays_in_range (355 # 113)%Q (fun _ => 0%Q)
           (fun d => d * (355 # 113) / 180)%Q (fun r p t => V3 r p t)
           (1 # 20)%Q 33%Q (demoSunFrames (1 # 20) [16%Q])); decide_Q.
Defined.

Lemma sun_angle_wraps_once_witness :
  (2 * (355 # 113) < theta (demoSunFrames 2 [6400]))%Q.
Proof.
  apply (@sun_angle_wraps_once (355 # 113)%Q (fun _ => 0%Q)
           (fun d => d * (355 # 113) / 180)%Q (fun r p t => V3 r p t)
           eq_refl 2%Q 6400%Q demoSun).
  decide_Q.
Defined.

Lemma sun_angle_is_frame_rate_independent_witness :
  (theta (demoSunFrames (1 # 20) ([16; 33; 50] ++ [1000]))
   == theta (demoSunFrames (1 # 20) [1000]))%Q.
Proof.
  apply (proj1 sun_angle_is_frame_rate_independent (355 # 113)%Q
           (fun _ => 0%Q) (fun d => d * (355 # 113) / 180)%Q
           (fun r p t => V3 r p t) (1 # 20)%Q [16; 33; 50]%Q 1000%Q demoSun);
    decide_Q.
Defined.
